(** * tyson: typed navigation of decoded JSON objects

    A shallow embedding of [tyson.go] (package [tyson]) and the properties
    of its optional container, its mappers and its key traversal.

    Layout:
    - [Zero], [Mapper], [Node]: the generic part of the package;
    - [All], [One], [Map]: the combinators;
    - [any], [Object]: decoded JSON as Go holds it in [map[string]any];
    - [AsArray] ... [AsString], [AsInt]: the default mappers;
    - [get], [Get] and the typed getters;
    - [Store]: the same methods over a heap of Go maps, with [Set] and
      [Remove], for the statements about mutation;
    - [reach], [stuck], [repr]: what the documentation says of a
      traversal, and how a heap holds a tree;
    - the lemmas, the statements of the specification (C1 to C10) and,
      at the end, further properties of the code (X1 to X25). *)

From Stdlib Require Import ZArith Floats.SpecFloat.
From stdpp Require Import base option list strings gmap.

Set Warnings "-register-all".

(** ** Zero values

    Go gives every type a zero value: declared results ([w T]) start out
    as it, [*new(T)] reads it and a failed type assertion [v.(T)] yields
    it. *)

Class Zero (T : Type) := zero : T.
Global Hint Mode Zero ! : typeclass_instances.

Global Instance bool_zero : Zero bool := false.
Global Instance string_zero : Zero string := EmptyString.
(** The nil slice; it has length 0 like [make([]T, 0)]. *)
Global Instance slice_zero {T} : Zero (list T) := [].
(** The nil map; reading it behaves like reading the empty map. *)
Global Instance map_zero {V} : Zero (gmap string V) := (∅ : gmap string V).

(** ** Mappers

    [type Mapper[S any, T any] func(v S) (w T, ok bool)] *)

Definition Mapper (S T : Type) : Type := S → T * bool.

(** ** Nodes

    The interface [Node[T]] has the two implementations [empty[T]] and
    [value[T]], both unexported. *)

Inductive Node (T : Type) : Type :=
  | empty : Node T
  | value (v : T) : Node T.
Arguments empty {T}.
Arguments value {T} v.

Definition EmptyNode {T} : Node T := empty.
Definition ValueNode {T} (v : T) : Node T := value v.

(** A supplier [func() T] may read and change the state of the program
    around it; [W] is that state. *)
Definition Supplier (W T : Type) : Type := W → T * W.

Section NodeMethods.
Context {T : Type}.

Definition Value `{!Zero T} (n : Node T) : T :=
  match n with
  | empty => zero
  | value v => v
  end.

Definition Empty (n : Node T) : bool :=
  match n with
  | empty => true
  | value _ => false
  end.

Definition Or (n : Node T) (v : T) : T :=
  match n with
  | empty => v
  | value x => x
  end.

Definition OrGet {W} (n : Node T) (f : Supplier W T) : Supplier W T :=
  fun w =>
    match n with
    | empty => f w
    | value x => (x, w)
    end.
End NodeMethods.

(** A supplier that also counts how often it has been called. *)
Definition counted {W T} (f : Supplier W T) : Supplier (W * nat) T :=
  fun '(w, calls) => let '(t, w') := f w in (t, (w', S calls)).

(** ** Combinators *)

Section Combinators.
Context {S T : Type}.

(** The body of [for i, x := range v] in [All], from index [i] on, with
    [w] the slice allocated by [make]. *)
Fixpoint All_range (m : Mapper S T) (v : list S) (i : nat) (w : list T)
    : list T * bool :=
  match v with
  | [] => (w, true)
  | x :: v' =>
      let '(y, ok) := m x in
      if ok then All_range m v' (Datatypes.S i) (<[i := y]> w)
      else (zero, false)
  end.

Definition All `{!Zero T} (m : Mapper S T) : Mapper (list S) (list T) :=
  fun v => All_range m v 0 (replicate (length v) zero).

(** The loop of [One]; [r] holds the results [w, ok] assigned so far. *)
Fixpoint One_range (mappers : list (Mapper S T)) (v : S) (r : T * bool)
    : T * bool :=
  match mappers with
  | [] => r
  | m :: mappers' =>
      let r' := m v in
      if r'.2 then r' else One_range mappers' v r'
  end.

Definition One `{!Zero T} (mappers : list (Mapper S T)) : Mapper S T :=
  fun v => One_range mappers v (zero, false).

Definition Map `{!Zero S} (n : Node S) (m : Mapper S T) : Node T :=
  if negb (Empty n) then
    let '(v, ok) := m (Value n) in
    if ok then ValueNode v else EmptyNode
  else EmptyNode.
End Combinators.

(** ** Dynamic values

    What an [any] of this package can hold.  [encoding/json] decodes into
    [nil], [bool], [float64], [string], [[]any] and [map[string]any]; the
    package itself boxes an [Object] in [Get()] (a defined type, distinct
    from [map[string]any] for a type assertion); callers of [Set] can store
    values of any further type, which no assertion of the package
    matches. *)

Inductive any : Type :=
  | Nil
  | Bool (b : bool)
  | Float64 (f : spec_float)
  | String (s : string)
  | Slice (l : list any)
  | MapStringAny (m : gmap string any)
  | Boxed (o : gmap string any)
  | Foreign (tag : nat).

(** [type Object map[string]any] *)
Abbreviation Object := (gmap string any).

Global Instance any_zero : Zero any := Nil.
Global Instance float64_zero : Zero spec_float := S754_zero false.
(** [int64] is a [Z] in [int64_min .. int64_max]. *)
Global Instance int64_zero : Zero Z := 0%Z.

(** ** Default mappers

    Each is one type assertion [w, ok = v.(T)]: the boxed value when the
    dynamic type of [v] is identical to [T], the zero value of [T] and
    [false] otherwise. *)

Definition AsArray : Mapper any (list any) :=
  fun v => match v with Slice l => (l, true) | _ => (zero, false) end.

Definition AsBool : Mapper any bool :=
  fun v => match v with Bool b => (b, true) | _ => (zero, false) end.

Definition AsFloat : Mapper any spec_float :=
  fun v => match v with Float64 f => (f, true) | _ => (zero, false) end.

(** [v.(map[string]any)]: a boxed [Object] has another dynamic type. *)
Definition AsObject : Mapper any Object :=
  fun v => match v with MapStringAny m => (m, true) | _ => (zero, false) end.

Definition AsString : Mapper any string :=
  fun v => match v with String s => (s, true) | _ => (zero, false) end.

(** ** float64 and int64

    [float64] is IEEE 754 binary64, the instance [prec = 53],
    [emax = 1024] of the Standard Library's specification of floats. *)

Definition prec : Z := 53.
Definition emax : Z := 1024.

Definition int64_min : Z := - 2 ^ 63.
Definition int64_max : Z := 2 ^ 63 - 1.

Definition in_int64 (z : Z) : bool :=
  (int64_min <=? z)%Z && (z <=? int64_max)%Z.

(** Two's complement wrap-around into [int64]. *)
Definition wrap64 (z : Z) : Z :=
  ((z + 2 ^ 63) `mod` 2 ^ 64 - 2 ^ 63)%Z.

(** The fraction of a finite float discarded (truncation towards zero);
    nothing for infinities and NaN. *)
Definition truncate (v : spec_float) : option Z :=
  match v with
  | S754_zero _ => Some 0%Z
  | S754_finite s m e => Some (cond_Zopp s (Z.shiftl (Z.pos m) e))
  | S754_infinity _ | S754_nan => None
  end.

(** [float64(w)] for an integer [w]: the nearest float, ties to even. *)
Definition float64_of_int (w : Z) : spec_float :=
  binary_normalize prec emax w 0 false.

(** The comparison [==] on [float64]: NaN differs from everything and
    the two zeros are equal. *)
Definition float64_eq (x y : spec_float) : bool := SFeqb x y.

(** No bit of the mantissa lies behind the binary point. *)
Definition integral (x : spec_float) : bool :=
  match x with
  | S754_zero _ => true
  | S754_finite _ m e =>
      (Z.shiftl (Z.shiftl (Z.pos m) e) (- e) =? Z.pos m)%Z
  | S754_infinity _ | S754_nan => false
  end.

Section Getters.
(** [int64(v)] for a [v] that [int64] cannot represent (too large, an
    infinity or NaN): the conversion succeeds and its result depends on
    the implementation, so it is a parameter, wrapped into [int64]. *)
Variable unrepresentable : spec_float → Z.

Definition int64_of_float64 (v : spec_float) : Z :=
  match truncate v with
  | Some z => if in_int64 z then z else wrap64 (unrepresentable v)
  | None => wrap64 (unrepresentable v)
  end.

Definition AsInt : Mapper spec_float Z :=
  fun v =>
    let w := int64_of_float64 v in
    (w, float64_eq v (float64_of_int w)).

(** ** Traversal

    A result [None] is a run-time panic (an index out of range). *)

Definition get (o : Object) (k : string) : Node any :=
  match o !! k with
  | Some v => ValueNode v
  | None => EmptyNode
  end.

(** The loop [for i < len(keys)-1] of [Get].  [rest] is
    [len(keys)-1 - i], so the guard holds exactly when [rest] is a
    successor; the result is [n] and [i] when the loop is left. *)
Fixpoint Get_for (keys : list string) (rest : nat) (n : Node Object)
    (i : nat) : option (Node Object * nat) :=
  match rest with
  | O => Some (n, i)
  | S rest' =>
      k ← keys !! i;
      let n' := Map (get (Value n) k) AsObject in
      if Empty n' then Some (n', i)
      else Get_for keys rest' n' (S i)
  end.

Definition Get (o : Object) (keys : list string) : option (Node any) :=
  match length keys with
  | 0 => Some (ValueNode (Boxed o))
  | 1 => k ← keys !! 0; Some (get o k)
  | _ =>
      '(n, i) ← Get_for keys (length keys - 1) (ValueNode o) 0;
      k ← keys !! i;
      Some (get (Value n) k)
  end.

Definition Has (o : Object) (k : string) : bool :=
  match o !! k with Some _ => true | None => false end.

(** ** Typed getters *)

(** [Map(c, m)] for a call [c] that may panic. *)
Definition Map_call {A B} `{!Zero A} (c : option (Node A))
    (m : Mapper A B) : option (Node B) :=
  n ← c; Some (Map n m).

Definition GetArray (o : Object) (keys : list string) :=
  Map_call (Get o keys) AsArray.
Definition GetBool (o : Object) (keys : list string) :=
  Map_call (Get o keys) AsBool.
Definition GetFloat (o : Object) (keys : list string) :=
  Map_call (Get o keys) AsFloat.
Definition GetInt (o : Object) (keys : list string) :=
  Map_call (GetFloat o keys) AsInt.
Definition GetObject (o : Object) (keys : list string) :=
  Map_call (Get o keys) AsObject.
Definition GetString (o : Object) (keys : list string) :=
  Map_call (Get o keys) AsString.

Definition GetArrays (o : Object) (keys : list string) :=
  Map_call (GetArray o keys) (All AsArray).
Definition GetBools (o : Object) (keys : list string) :=
  Map_call (GetArray o keys) (All AsBool).
Definition GetFloats (o : Object) (keys : list string) :=
  Map_call (GetArray o keys) (All AsFloat).
Definition GetInts (o : Object) (keys : list string) :=
  Map_call (GetFloats o keys) (All AsInt).
Definition GetObjects (o : Object) (keys : list string) :=
  Map_call (GetArray o keys) (All AsObject).
Definition GetStrings (o : Object) (keys : list string) :=
  Map_call (GetArray o keys) (All AsString).
End Getters.

(** ** The methods over a heap of maps

    A Go map is a reference: an [Object] is [nil] or the address of a
    table that every copy of the reference shares, and a method that
    assigns through it is seen by all of them.  Here the tables live in a
    heap and every method is a computation on that heap, so that what a
    call leaves behind can be stated.  Slices are never written by the
    package and stay values. *)

Module Store.
Abbreviation addr := positive.

Inductive any : Type :=
  | Nil
  | Bool (b : bool)
  | Float64 (f : spec_float)
  | String (s : string)
  | Slice (l : list any)
  | MapStringAny (r : option addr)
  | Boxed (r : option addr)
  | Foreign (tag : nat).

(** [None] is the nil map. *)
Abbreviation Object := (option addr).
Abbreviation table := (gmap string any).
Abbreviation heap := (gmap addr table).

Global Instance any_zero : Zero any := Nil.
Global Instance Object_zero : Zero Object := None.

(** A computation reads and writes the heap and may panic ([None]). *)
Definition M (A : Type) : Type := heap → option (A * heap).

Global Instance M_ret : MRet M := fun A a h => Some (a, h).
Global Instance M_bind : MBind M := fun A B f c h =>
  match c h with
  | Some (a, h') => f a h'
  | None => None
  end.

Definition panic {A} : M A := fun _ => None.

(** The entries of the map behind a reference; the nil map has none. *)
Definition entries (h : heap) (o : Object) : table :=
  match o with
  | Some a => default ∅ (h !! a)
  | None => ∅
  end.

(** [v, ok := o[k]] *)
Definition mapaccess (o : Object) (k : string) : M (option any) :=
  fun h => Some (entries h o !! k, h).

(** [o[k] = v]; assignment to an entry of the nil map panics. *)
Definition mapassign (o : Object) (k : string) (v : any) : M unit :=
  fun h =>
    match o with
    | Some a => Some ((), <[a := <[k := v]> (entries h o)]> h)
    | None => None
    end.

(** [delete(o, k)]; a no-op on the nil map. *)
Definition mapdelete (o : Object) (k : string) : M unit :=
  fun h =>
    match o with
    | Some a => Some ((), <[a := delete k (entries h o)]> h)
    | None => Some ((), h)
    end.

(** [keys[i]] *)
Definition index (keys : list string) (i : nat) : M string :=
  match keys !! i with
  | Some k => mret k
  | None => panic
  end.

Definition AsArray : Mapper any (list any) :=
  fun v => match v with Slice l => (l, true) | _ => (zero, false) end.
Definition AsBool : Mapper any bool :=
  fun v => match v with Bool b => (b, true) | _ => (zero, false) end.
Definition AsFloat : Mapper any spec_float :=
  fun v => match v with Float64 f => (f, true) | _ => (zero, false) end.
Definition AsObject : Mapper any Object :=
  fun v => match v with MapStringAny r => (r, true) | _ => (zero, false) end.
Definition AsString : Mapper any string :=
  fun v => match v with String s => (s, true) | _ => (zero, false) end.

Section Methods.
Variable unrepresentable : spec_float → Z.

Definition get (o : Object) (k : string) : M (Node any) :=
  r ← mapaccess o k;
  mret (match r with
        | Some v => ValueNode v
        | None => EmptyNode
        end).

Fixpoint Get_for (keys : list string) (rest : nat) (n : Node Object)
    (i : nat) : M (Node Object * nat) :=
  match rest with
  | O => mret (n, i)
  | S rest' =>
      k ← index keys i;
      n0 ← get (Value n) k;
      let n' := Map n0 AsObject in
      if Empty n' then mret (n', i)
      else Get_for keys rest' n' (S i)
  end.

Definition Get (o : Object) (keys : list string) : M (Node any) :=
  match length keys with
  | 0 => mret (ValueNode (Boxed o))
  | 1 => k ← index keys 0; get o k
  | _ =>
      '(n, i) ← Get_for keys (length keys - 1) (ValueNode o) 0;
      k ← index keys i;
      get (Value n) k
  end.

Definition Has (o : Object) (k : string) : M bool :=
  r ← mapaccess o k;
  mret (match r with Some _ => true | None => false end).

(** [Set]; the name is reserved here. *)
Definition Set_ (o : Object) (k : string) (v : any) : M unit :=
  mapassign o k v.

Definition Remove (o : Object) (k : string) : M unit :=
  mapdelete o k.

Definition Map_call {A B} `{!Zero A} (c : M (Node A))
    (m : Mapper A B) : M (Node B) :=
  n ← c; mret (Map n m).

Definition GetArray (o : Object) (keys : list string) :=
  Map_call (Get o keys) AsArray.
Definition GetBool (o : Object) (keys : list string) :=
  Map_call (Get o keys) AsBool.
Definition GetFloat (o : Object) (keys : list string) :=
  Map_call (Get o keys) AsFloat.
Definition GetInt (o : Object) (keys : list string) :=
  Map_call (GetFloat o keys) (AsInt unrepresentable).
Definition GetObject (o : Object) (keys : list string) :=
  Map_call (Get o keys) AsObject.
Definition GetString (o : Object) (keys : list string) :=
  Map_call (Get o keys) AsString.

Definition GetArrays (o : Object) (keys : list string) :=
  Map_call (GetArray o keys) (All AsArray).
Definition GetBools (o : Object) (keys : list string) :=
  Map_call (GetArray o keys) (All AsBool).
Definition GetFloats (o : Object) (keys : list string) :=
  Map_call (GetArray o keys) (All AsFloat).
Definition GetInts (o : Object) (keys : list string) :=
  Map_call (GetFloats o keys) (All (AsInt unrepresentable)).
Definition GetObjects (o : Object) (keys : list string) :=
  Map_call (GetArray o keys) (All AsObject).
Definition GetStrings (o : Object) (keys : list string) :=
  Map_call (GetArray o keys) (All AsString).
End Methods.

(** A computation that returns and leaves every map as it found it. *)
Definition read_only {A} (c : M A) : Prop :=
  ∀ h, ∃ a, c h = Some (a, h).

(** The value at the end of [keys] in the heap [h], as the documentation
    of [Get] describes it. *)
Fixpoint reach (h : heap) (o : Object) (keys : list string) : option any :=
  match keys with
  | [] => Some (Boxed o)
  | k :: keys' =>
      match keys' with
      | [] => entries h o !! k
      | _ :: _ =>
          match entries h o !! k with
          | Some (MapStringAny o') => reach h o' keys'
          | _ => None
          end
      end
  end.
End Store.

(** ** What the documentation says of a traversal

    These three definitions follow the description of [Get], not its
    code, and are compared with the code below. *)

Definition of_option {T} (r : option T) : Node T :=
  match r with
  | Some v => ValueNode v
  | None => EmptyNode
  end.

(** The value reached at the end of [keys]: the object itself for no key,
    the entry of the last key in the map reached through all keys before
    it. *)
Fixpoint reach (o : Object) (keys : list string) : option any :=
  match keys with
  | [] => Some (Boxed o)
  | k :: keys' =>
      match keys' with
      | [] => o !! k
      | _ :: _ =>
          match o !! k with
          | Some (MapStringAny o') => reach o' keys'
          | _ => None
          end
      end
  end.

(** Some step of the traversal fails: a key is absent, or the value under
    a key that is not the last one is not a map. *)
Inductive stuck : Object → list string → Prop :=
  | stuck_absent o k keys :
      o !! k = None → stuck o (k :: keys)
  | stuck_shape o k v keys :
      o !! k = Some v → keys ≠ [] → (AsObject v).2 = false →
      stuck o (k :: keys)
  | stuck_below o k v o' keys :
      o !! k = Some v → AsObject v = (o', true) → stuck o' keys →
      stuck o (k :: keys).

(** ** Heaps that hold a tree

    [repr h v t]: in the heap [h] the value [v] unfolds to the tree [t],
    every reference to a map replaced by the entries behind it. *)

Inductive node_rel {A B} (R : A → B → Prop) : Node A → Node B → Prop :=
  | node_rel_empty : node_rel R empty empty
  | node_rel_value a b : R a b → node_rel R (value a) (value b).

Inductive repr (h : Store.heap) : Store.any → any → Prop :=
  | repr_Nil : repr h Store.Nil Nil
  | repr_Bool b : repr h (Store.Bool b) (Bool b)
  | repr_Float64 f : repr h (Store.Float64 f) (Float64 f)
  | repr_String s : repr h (Store.String s) (String s)
  | repr_Slice l l' :
      Forall2 (repr h) l l' → repr h (Store.Slice l) (Slice l')
  | repr_MapStringAny r m :
      (∀ k, option_Forall2 (repr h) (Store.entries h r !! k) (m !! k)) →
      repr h (Store.MapStringAny r) (MapStringAny m)
  | repr_Boxed r m :
      (∀ k, option_Forall2 (repr h) (Store.entries h r !! k) (m !! k)) →
      repr h (Store.Boxed r) (Boxed m)
  | repr_Foreign tag : repr h (Store.Foreign tag) (Foreign tag).

(** The map behind [o] in [h] holds the entries of the tree [t]. *)
Definition repr_object (h : Store.heap) (o : Store.Object) (t : Object)
    : Prop :=
  ∀ k, option_Forall2 (repr h) (Store.entries h o !! k) (t !! k).

(** [f], then [g] on its result: with [AsFloat] and [AsInt], the
    coercion of a dynamic value to an integer. *)
Definition chain {A B C} `{!Zero C} (f : Mapper A B) (g : Mapper B C)
    : Mapper A C :=
  fun v => let '(x, ok) := f v in if ok then g x else (zero, false).

(** ** Values used in the examples *)

(** [42.0], [42.01] and [-7.0] as binary64: sign, 53-bit mantissa and
    exponent. *)
Definition float_42 : spec_float := S754_finite false 5910974510923776 (-47).
Definition float_42_01 : spec_float :=
  S754_finite false 5912381885807329 (-47).
Definition float_minus_7 : spec_float :=
  S754_finite true 7881299347898368 (-50).

(** [{"foo": {"bar": "baz"}}], of [TestObject_Get_Nested_Fail]. *)
Definition foo_bar_baz : Object :=
  {[ "foo" := MapStringAny {[ "bar" := String "baz" ]} ]}.

(** [{"obj": {"num": 42, "str": "abc"}, "arr": [true, false]}], the
    object of the README. *)
Definition readme : Object :=
  {[ "obj" := MapStringAny {[ "num" := Float64 float_42;
                               "str" := String "abc" ]};
     "arr" := Slice [Bool true; Bool false] ]}.

(** [{"a": null}] *)
Definition a_null : Object := {[ "a" := Nil ]}.

(** A heap that holds [foo_bar_baz]: the outer map at address 1, the
    inner one at address 2. *)
Definition foo_bar_baz_heap : Store.heap :=
  {[ 1%positive := {[ "foo" := Store.MapStringAny (Some 2%positive) ]};
     2%positive := {[ "bar" := Store.String "baz" ]} ]}.

(** [{"v": []}] *)
Definition v_empty : Object := {[ "v" := Slice [] ]}.

(** [10.0] and [20.0], and [{"v": [10.0, 20.0]}] of
    [TestObject_GetInts]. *)
Definition float_10 : spec_float := S754_finite false 5629499534213120 (-49).
Definition float_20 : spec_float := S754_finite false 5629499534213120 (-48).
Definition v_10_20 : Object :=
  {[ "v" := Slice [Float64 float_10; Float64 float_20] ]}.

(** 1 for a node that holds a value, 0 for the empty node. *)
Definition present {T} (n : Node T) : nat := if Empty n then 0 else 1.

(** ** Properties of nodes and combinators *)

Section NodeFacts.
Context {T : Type} `{!Zero T}.

Lemma Empty_EmptyNode : Empty (@EmptyNode T) = true.
Proof. reflexivity. Qed.

Lemma Empty_ValueNode (v : T) : Empty (ValueNode v) = false.
Proof. reflexivity. Qed.

Lemma Value_ValueNode (v : T) : Value (ValueNode v) = v.
Proof. reflexivity. Qed.

Lemma Empty_of_option (r : option T) :
  Empty (of_option r) = bool_decide (r = None).
Proof. by destruct r. Qed.

Lemma not_Empty_inv (n : Node T) :
  Empty n = false → n = ValueNode (Value n).
Proof. by destruct n. Qed.
End NodeFacts.

Section MapFacts.
Context {S T : Type} `{!Zero S}.
Implicit Types (n : Node S) (m : Mapper S T).

Lemma Map_empty m : Map empty m = empty.
Proof. reflexivity. Qed.

Lemma Map_value v m :
  Map (value v) m = if (m v).2 then value (m v).1 else empty.
Proof. unfold Map. simpl. by destruct (m v) as [w []]. Qed.

Lemma Map_value_ok v m w : m v = (w, true) → Map (value v) m = value w.
Proof. intros E. by rewrite Map_value, E. Qed.

Lemma Map_value_fail v m w : m v = (w, false) → Map (value v) m = empty.
Proof. intros E. by rewrite Map_value, E. Qed.
End MapFacts.

Section AllFacts.
Context {S T : Type} `{!Zero T}.
Implicit Types (m : Mapper S T) (v : list S) (w : list T).

(** Running the loop from index [length filled] over the rest of the
    input fills the slots behind those already written. *)
Lemma All_range_app m v filled rest :
  length rest = length v →
  All_range m v (length filled) (filled ++ rest) =
    if forallb (fun x => (m x).2) v
    then (filled ++ map (fun x => (m x).1) v, true)
    else ([], false).
Proof.
  revert filled rest. induction v as [|x v IH]; intros filled rest Hlen.
  - destruct rest; [|done]. simpl. by rewrite app_nil_r.
  - destruct rest as [|r rest]; [done|]. simpl in *.
    destruct (m x) as [y []]; simpl; [|done].
    replace (<[length filled := y]> (filled ++ r :: rest))
      with ((filled ++ [y]) ++ rest).
    + replace (Datatypes.S (length filled)) with (length (filled ++ [y]))
        by (rewrite length_app; simpl; lia).
      rewrite IH by lia. by rewrite <- app_assoc.
    + rewrite <- app_assoc. simpl.
      rewrite insert_app_r_alt by lia.
      by replace (length filled - length filled) with 0 by lia.
Qed.

Lemma All_eq m v :
  All m v =
    if forallb (fun x => (m x).2) v
    then (map (fun x => (m x).1) v, true)
    else ([], false).
Proof.
  unfold All.
  apply (All_range_app m v [] (replicate (length v) zero)).
  by rewrite length_replicate.
Qed.
End AllFacts.

Section OneFacts.
Context {S T : Type} `{!Zero T}.
Implicit Types (m : Mapper S T) (mappers : list (Mapper S T)) (v : S).

(** The mappers before the first success all fail and are passed over. *)
Lemma One_range_skip mappers before v r :
  Forall (fun m => (m v).2 = false) before →
  One_range (before ++ mappers) v r =
    One_range mappers v (default r ((.$ v) <$> last before)).
Proof.
  revert r. induction before as [|m before IH]; intros r Hfail; [done|].
  inversion_clear Hfail as [|?? Hm Hbefore]. simpl.
  rewrite Hm, IH by done. f_equal.
  rewrite last_cons. by destruct (last before).
Qed.

Lemma One_range_hit m mappers v r :
  (m v).2 = true → One_range (m :: mappers) v r = m v.
Proof. intros Hm. simpl. by rewrite Hm. Qed.

Lemma One_range_ok mappers v r :
  r.2 = false →
  (One_range mappers v r).2 = existsb (fun m => (m v).2) mappers.
Proof.
  revert r. induction mappers as [|m mappers IH]; intros r Hr; [done|].
  simpl. destruct (m v).2 eqn:Hm; [done|]. by apply IH.
Qed.

Lemma One_first before m after v :
  Forall (fun m' => (m' v).2 = false) before →
  (m v).2 = true →
  One (before ++ m :: after) v = m v.
Proof.
  intros Hbefore Hm. unfold One.
  rewrite One_range_skip by done. by apply One_range_hit.
Qed.

Lemma One_ok mappers v :
  (One mappers v).2 = existsb (fun m => (m v).2) mappers.
Proof. by apply One_range_ok. Qed.
End OneFacts.

(** ** Properties of the traversal *)

Section GetFacts.
Implicit Types (o : Object) (k : string) (keys : list string).

Lemma get_of_option o k : get o k = of_option (o !! k).
Proof. reflexivity. Qed.

Lemma get_nil_map k : get (Value (@empty Object)) k = EmptyNode.
Proof. reflexivity. Qed.

(** One descent of the loop: the node it assigns to [n]. *)
Lemma descend_map o k o' :
  o !! k = Some (MapStringAny o') →
  Map (get o k) AsObject = ValueNode o'.
Proof. intros E. unfold get. by rewrite E. Qed.

Lemma descend_fail o k :
  (∀ o', o !! k ≠ Some (MapStringAny o')) →
  Map (get o k) AsObject = EmptyNode.
Proof.
  intros E. unfold get. destruct (o !! k) as [v|]; [|done].
  destruct v; try done. by destruct (E m).
Qed.

(** The loop and the last lookup, started at index [length before]
    in the map [o], reach what the keys from there on reach in [o]. *)
Lemma Get_for_reach keys before o :
  keys ≠ [] →
  ('(n, i) ← Get_for (before ++ keys) (length keys - 1)
               (ValueNode o) (length before);
   k ← (before ++ keys) !! i;
   Some (get (Value n) k)) = Some (of_option (reach o keys)).
Proof.
  revert before o.
  induction keys as [|k keys IH]; intros before o Hne; [done|].
  destruct keys as [|k' keys].
  - simpl. by rewrite list_lookup_middle.
  - assert (Hk : (before ++ k :: k' :: keys) !! length before = Some k)
      by by rewrite list_lookup_middle.
    replace (length (k :: k' :: keys) - 1) with (S (length keys))
      by (simpl; lia).
    cbn [Get_for]. rewrite Hk. cbn [mbind option_bind Value ValueNode].
    destruct (o !! k) as [v|] eqn:Ev.
    + assert (Hv : (∃ o', v = MapStringAny o') ∨ ∀ o', v ≠ MapStringAny o')
        by (destruct v; eauto).
      destruct Hv as [[o' ->]|Hv].
      * rewrite (descend_map o k o') by done. cbn [Empty ValueNode].
        pose proof (IH (before ++ [k]) o' ltac:(done)) as IH'.
        rewrite <- app_assoc, length_app in IH'.
        cbn [length app] in IH'.
        replace (length before + 1) with (S (length before)) in IH' by lia.
        replace (S (length keys) - 1) with (length keys) in IH' by lia.
        rewrite IH'. simpl. by rewrite Ev.
      * rewrite descend_fail.
        2:{ intros o' E. rewrite Ev in E. naive_solver. }
        cbn [Empty EmptyNode mbind option_bind]. rewrite Hk.
        cbn [mbind option_bind]. rewrite get_nil_map.
        simpl. rewrite Ev. destruct v; try done. naive_solver.
    + rewrite descend_fail by (intros o'; by rewrite Ev).
      cbn [Empty EmptyNode mbind option_bind]. rewrite Hk.
      cbn [mbind option_bind]. rewrite get_nil_map.
      simpl. by rewrite Ev.
Qed.

Lemma Get_reach o keys : Get o keys = Some (of_option (reach o keys)).
Proof.
  destruct keys as [|k [|k' keys]]; [done..|].
  apply (Get_for_reach (k :: k' :: keys) [] o). done.
Qed.

(** A traversal that is stuck stays stuck whatever keys follow. *)
Lemma stuck_app o keys more : stuck o keys → stuck o (keys ++ more).
Proof.
  induction 1 as [o k keys Ek|o k v keys Ek Hne Hv|o k v o' keys Ek Hv Hs IH];
    simpl.
  - by apply stuck_absent.
  - eapply stuck_shape; [done| |done]. by destruct keys.
  - by eapply stuck_below.
Qed.

Lemma reach_None_stuck o keys : reach o keys = None ↔ stuck o keys.
Proof.
  split.
  - revert o. induction keys as [|k keys IH]; intros o; [done|].
    simpl. destruct keys as [|k' keys].
    + apply stuck_absent.
    + destruct (o !! k) as [v|] eqn:Ev; [|intros _; by apply stuck_absent].
      destruct v; try (intros _; by eapply stuck_shape).
      intros Hr. eapply stuck_below; [done..|]. by apply IH.
  - induction 1 as [o k keys Ek|o k v keys Ek Hne Hv|o k v o' keys Ek Hv Hs IH];
      simpl.
    + rewrite Ek. by destruct keys.
    + rewrite Ek. destruct keys; [done|]. by destruct v.
    + rewrite Ek. destruct keys; [inversion Hs|].
      destruct v; try done. simpl in Hv. by simplify_eq.
Qed.
End GetFacts.

(** ** Properties of the number conversions *)

Section FloatFacts.
Implicit Types (x y : spec_float).

Lemma SFcompare_antisym x y :
  SFcompare y x = CompOpp <$> SFcompare x y.
Proof.
  destruct x as [sx|sx| |sx mx ex], y as [sy|sy| |sy my ey];
    try (by repeat match goal with s : bool |- _ => destruct s end).
  simpl. f_equal. rewrite (Z.compare_antisym ex ey).
  change (Pos.compare_cont Eq my mx) with (Pos.compare my mx).
  change (Pos.compare_cont Eq mx my) with (Pos.compare mx my).
  rewrite (Pos.compare_antisym mx my).
  destruct sx, sy; simpl; try done;
    destruct (ex ?= ey)%Z; simpl; try done;
    by destruct (mx ?= my)%positive.
Qed.

Lemma float64_eq_sym x y : float64_eq x y = float64_eq y x.
Proof.
  unfold float64_eq, SFeqb. rewrite (SFcompare_antisym x y).
  by destruct (SFcompare x y) as [[]|].
Qed.

Lemma float64_eq_nan_l y : float64_eq S754_nan y = false.
Proof. reflexivity. Qed.

Lemma wrap64_in_int64 z : in_int64 (wrap64 z) = true.
Proof.
  unfold in_int64, wrap64, int64_min, int64_max.
  pose proof (Z.mod_pos_bound (z + 2 ^ 63) (2 ^ 64) ltac:(done)).
  apply andb_true_iff. split; apply Z.leb_le; lia.
Qed.

Lemma int64_of_float64_in_int64 unrepresentable x :
  in_int64 (int64_of_float64 unrepresentable x) = true.
Proof.
  unfold int64_of_float64.
  destruct (truncate x) as [z|]; [|apply wrap64_in_int64].
  destruct (in_int64 z) eqn:E; [done|apply wrap64_in_int64].
Qed.
End FloatFacts.

(** *** Integers and floats without fraction

    [float64(w)] is computed by [binary_round] on the mantissa [|w|]
    with exponent 0.  Below 54 bits the mantissa is shifted up to 53
    bits and kept as it is; from 54 to 64 bits it is shifted down and
    rounded, and the exponent is positive. *)

Section ExactIntegers.
Implicit Types (m p q : positive) (e : Z).
Local Open Scope Z_scope.

(** The number of bits of a mantissa. *)
Lemma digits2_pos_size p : digits2_pos p = Pos.size p.
Proof. induction p; simpl; congruence. Qed.

Lemma digits2_pos_log2 p :
  Z.pos (digits2_pos p) = Z.succ (Z.log2 (Z.pos p)).
Proof.
  destruct p as [p|p|]; simpl; rewrite ?digits2_pos_size; lia.
Qed.

Lemma digits2_pos_bound p : Z.pos p < 2 ^ 53 → Z.pos (digits2_pos p) ≤ 53.
Proof.
  intros Hp. rewrite digits2_pos_log2.
  apply Z.log2_lt_pow2 in Hp; lia.
Qed.

Lemma digits2_pos_iter_xO m q :
  digits2_pos (Pos.iter xO m q) = (digits2_pos m + q)%positive.
Proof.
  induction q as [|q IH] using Pos.peano_ind.
  - simpl. lia.
  - rewrite Pos.iter_succ. simpl. rewrite IH. lia.
Qed.

(** Shifting up by [q] bits and down again. *)
Lemma shiftl_iter_xO m q :
  Z.shiftl (Z.pos (Pos.iter xO m q)) (Z.neg q) = Z.pos m.
Proof.
  change (Z.shiftl ?a (Z.neg q)) with (Pos.iter Z.div2 a q).
  revert m. induction q as [|q IH] using Pos.peano_ind; intros m.
  - reflexivity.
  - rewrite Pos.iter_succ_r, Pos.iter_succ. apply IH.
Qed.

(** A mantissa that already has its exponent is not rounded. *)
Lemma binary_round_aux_exact s m e :
  fexp prec emax (Z.pos (digits2_pos m) + e) = e →
  e ≤ emax - prec →
  binary_round_aux prec emax s (Z.pos m) e loc_Exact = S754_finite s m e.
Proof.
  intros Hfexp He. unfold binary_round_aux, shr_fexp.
  cbn [Zdigits2 shr_record_of_loc]. rewrite Hfexp, Z.sub_diag.
  cbn [shr shr_m loc_of_shr_record round_nearest_even Zdigits2
       shr_record_of_loc].
  rewrite Hfexp, Z.sub_diag. cbn [shr shr_m].
  by rewrite (proj2 (Z.leb_le _ _) He).
Qed.

Lemma shiftl_pos_iter_xO p q :
  Z.shiftl (Z.pos p) (Z.pos q) = Z.pos (Pos.iter xO p q).
Proof.
  change (Z.shiftl (Z.pos p) (Z.pos q))
    with (Pos.iter (Z.mul 2) (Z.pos p) q).
  symmetry. by apply Pos.iter_swap_gen.
Qed.

(** A float with an exponent that is not negative has no fraction. *)
Lemma integral_nonneg_exponent s m e :
  0 ≤ e → integral (S754_finite s m e) = true.
Proof.
  intros He. apply Z.eqb_eq.
  change (Z.shiftl ?a (- e)) with (Z.shiftr a e).
  rewrite Z.shiftr_shiftl_l by lia. by rewrite Z.sub_diag.
Qed.

(** The float of an integer below 54 bits holds that integer. *)
Lemma binary_round_small s p :
  Z.pos p < 2 ^ 53 →
  ∃ m e, binary_round prec emax s p 0 = S754_finite s m e
         ∧ Z.shiftl (Z.pos m) e = Z.pos p
         ∧ integral (S754_finite s m e) = true.
Proof.
  intros Hp. apply digits2_pos_bound in Hp.
  unfold binary_round, shl_align.
  replace (fexp prec emax (Z.pos (digits2_pos p) + 0))
    with (Z.pos (digits2_pos p) - 53)
    by (unfold fexp, SpecFloat.emin, prec, emax; lia).
  rewrite Z.sub_0_r.
  destruct (Z.pos (digits2_pos p) - 53) as [|d|d] eqn:Hd; [|lia|].
  - exists p, 0. split_and!; [|done|by apply integral_nonneg_exponent].
    apply binary_round_aux_exact; [|done].
    unfold fexp, SpecFloat.emin, prec, emax. lia.
  - exists (Pos.iter xO p d), (Z.neg d). split_and!.
    + apply binary_round_aux_exact.
      * rewrite digits2_pos_iter_xO.
        unfold fexp, SpecFloat.emin, prec, emax. lia.
      * unfold prec, emax. lia.
    + apply shiftl_iter_xO.
    + apply Z.eqb_eq. rewrite shiftl_iter_xO. apply shiftl_pos_iter_xO.
Qed.

(** *** Large integers: the exponent and the bound on it *)

(** What one step preserves, its iteration preserves. *)
Lemma iter_pos_invariant {A} (P : A → Prop) (f : A → A) :
  (∀ x, P x → P (f x)) → ∀ n x, P x → P (SpecFloat.iter_pos f n x).
Proof.
  intros Hf. induction n as [n IH|n IH|]; intros x Hx; simpl; auto.
Qed.

(** Shifting down keeps a mantissa between 0 and what it was. *)
Lemma shr_1_bound b mrs :
  0 ≤ shr_m mrs ≤ b → 0 ≤ shr_m (shr_1 mrs) ≤ b.
Proof.
  destruct mrs as [[|[m|m|]|[m|m|]] r t]; simpl; lia.
Qed.

Lemma shr_bound b mrs e n :
  0 ≤ shr_m mrs ≤ b → 0 ≤ shr_m (shr mrs e n).1 ≤ b.
Proof.
  intros Hm. destruct n as [|n|n]; simpl; try done.
  apply (iter_pos_invariant (fun mrs => 0 ≤ shr_m mrs ≤ b)); [|done].
  intros x. apply shr_1_bound.
Qed.

(** Shifting down never lowers the exponent. *)
Lemma shr_exponent mrs e n : (shr mrs e n).2 = Z.max e (e + n).
Proof. destruct n; simpl; lia. Qed.

Lemma round_nearest_even_bound (z : Z) l :
  0 ≤ z → 0 ≤ round_nearest_even z l ≤ z + 1.
Proof.
  intros Hz. destruct l as [|[]]; simpl; try lia.
  destruct (Z.even z); lia.
Qed.

Lemma Zdigits2_bound z k : 0 ≤ k → 0 ≤ z < 2 ^ k → Zdigits2 z ≤ k.
Proof.
  intros Hk [Hz Hlt]. destruct z as [|p|p]; [done| |lia].
  simpl. rewrite digits2_pos_log2.
  apply Z.log2_lt_pow2 in Hlt; lia.
Qed.

Lemma Zdigits2_pos_lower p k : 2 ^ k ≤ Z.pos p → k < Z.pos (digits2_pos p).
Proof.
  intros Hp. rewrite digits2_pos_log2.
  pose proof (Z.log2_nonneg (Z.pos p)).
  destruct (Z.le_gt_cases 0 k) as [Hk|Hk]; [|lia].
  apply Z.log2_le_pow2 in Hp; lia.
Qed.

(** The float of an integer of 54 to 64 bits is finite and its exponent
    is positive. *)
Lemma binary_round_large s p :
  2 ^ 53 ≤ Z.pos p < 2 ^ 64 →
  binary_round prec emax s p 0 = S754_zero s
  ∨ ∃ m e, binary_round prec emax s p 0 = S754_finite s m e ∧ 0 ≤ e.
Proof.
  intros [Hlo Hhi].
  pose proof (Zdigits2_pos_lower p 53 Hlo) as Hd.
  pose proof (Zdigits2_bound (Z.pos p) 64 ltac:(done) ltac:(lia)) as Hd'.
  simpl in Hd'.
  unfold binary_round, shl_align.
  replace (fexp prec emax (Z.pos (digits2_pos p) + 0))
    with (Z.pos (digits2_pos p) - 53)
    by (unfold fexp, SpecFloat.emin, prec, emax; lia).
  rewrite Z.sub_0_r.
  destruct (Z.pos (digits2_pos p) - 53) as [|d|d] eqn:Hdd; [lia| |lia].
  unfold binary_round_aux.
  destruct (shr_fexp prec emax (Z.pos p) 0 loc_Exact) as [mrs' e'] eqn:H1.
  assert (e' = Z.pos d ∧ 0 ≤ shr_m mrs' ≤ Z.pos p) as [-> Hm'].
  { unfold shr_fexp in H1. cbn [Zdigits2 shr_record_of_loc] in H1.
    replace (fexp prec emax (Z.pos (digits2_pos p) + 0) - 0)
      with (Z.pos d) in H1
      by (unfold fexp, SpecFloat.emin, prec, emax; lia).
    split.
    - pose proof (shr_exponent {| shr_m := Z.pos p; shr_r := false;
                                   shr_s := false |} 0 (Z.pos d)) as He.
      rewrite H1 in He. simpl in He. lia.
    - pose proof (shr_bound (Z.pos p) {| shr_m := Z.pos p; shr_r := false;
                                         shr_s := false |} 0 (Z.pos d)
                    ltac:(simpl; lia)) as Hb.
      by rewrite H1 in Hb. }
  set (m1 := round_nearest_even (shr_m mrs') (loc_of_shr_record mrs')).
  pose proof (round_nearest_even_bound (shr_m mrs') (loc_of_shr_record mrs')
                ltac:(lia)) as Hm1. fold m1 in Hm1.
  destruct (shr_fexp prec emax m1 (Z.pos d) loc_Exact) as [mrs'' e''] eqn:H2.
  assert (Z.pos d ≤ e'' ≤ emax - prec ∧ 0 ≤ shr_m mrs'') as [He'' Hm''].
  { unfold shr_fexp in H2. split.
    - pose proof (shr_exponent (shr_record_of_loc m1 loc_Exact) (Z.pos d)
                    (fexp prec emax (Zdigits2 m1 + Z.pos d) - Z.pos d)) as He.
      rewrite H2 in He. simpl in He.
      pose proof (Zdigits2_bound m1 65 ltac:(done) ltac:(lia)) as Hd1.
      assert (0 ≤ Zdigits2 m1) by (destruct m1; simpl; lia).
      unfold fexp, SpecFloat.emin, prec, emax in *. lia.
    - pose proof (shr_bound m1 (shr_record_of_loc m1 loc_Exact) (Z.pos d)
                    (fexp prec emax (Zdigits2 m1 + Z.pos d) - Z.pos d)
                    ltac:(simpl; lia)) as Hb.
      rewrite H2 in Hb. simpl in Hb. lia. }
  destruct (shr_m mrs'') as [|m|m] eqn:Hm; [by left| |lia].
  right. exists m, e''.
  rewrite (proj2 (Z.leb_le _ _) (proj2 He'')). split; [done|lia].
Qed.

Lemma binary_round_integral s p :
  Z.pos p < 2 ^ 64 → integral (binary_round prec emax s p 0) = true.
Proof.
  intros Hp. destruct (Z.lt_ge_cases (Z.pos p) (2 ^ 53)) as [Hsmall|Hlarge].
  - destruct (binary_round_small s p Hsmall) as (m & e & -> & _ & Hint).
    done.
  - destruct (binary_round_large s p ltac:(lia)) as [->|(m & e & -> & He)];
      [done|by apply integral_nonneg_exponent].
Qed.

(** The float of an [int64] is a zero or a finite float without
    fraction. *)
Lemma float64_of_int_integral w :
  in_int64 w = true → integral (float64_of_int w) = true.
Proof.
  unfold in_int64, int64_min, int64_max.
  intros [Hlo Hhi]%andb_true_iff. apply Z.leb_le in Hlo, Hhi.
  destruct w as [|p|p]; [done|apply binary_round_integral; lia..].
Qed.

(** Floats that are [==] have a fraction or not together. *)
Lemma float64_eq_integral x y :
  float64_eq x y = true → integral y = true → integral x = true.
Proof.
  unfold float64_eq, SFeqb.
  destruct x as [sx|sx| |sx mx ex], y as [sy|sy| |sy my ey]; simpl;
    try done; try (by destruct sx); try (by destruct sy).
  destruct sx, sy; try done;
    destruct (ex ?= ey) eqn:He; try done;
    apply Z.compare_eq in He as ->;
    change (Pos.compare_cont Eq mx my) with (Pos.compare mx my);
    destruct (mx ?= my)%positive eqn:Hm; try done;
    by apply Pos.compare_eq in Hm as ->.
Qed.

(** *** Floats without fraction come back from their integer *)

Lemma iter_pos_iter {A} (f : A → A) n x :
  SpecFloat.iter_pos f n x = Pos.iter f x n.
Proof.
  revert x. induction n as [n IH|n IH|]; intros x; simpl; [| |done].
  - by rewrite !IH, !Pos.iter_swap.
  - by rewrite !IH.
Qed.

Lemma iter_shr_1_iter_xO m q :
  SpecFloat.iter_pos shr_1 q
    {| shr_m := Z.pos (Pos.iter xO m q); shr_r := false; shr_s := false |}
  = {| shr_m := Z.pos m; shr_r := false; shr_s := false |}.
Proof.
  rewrite iter_pos_iter.
  induction q as [|q IH] using Pos.peano_ind; [done|].
  by rewrite Pos.iter_succ_r, Pos.iter_succ.
Qed.

(** The integer of a valid float without fraction, as a mantissa of a
    float with exponent 0, is rounded to that float. *)
Lemma binary_round_integral_inv s m e p :
  bounded prec emax m e = true →
  Z.shiftl (Z.pos m) e = Z.pos p →
  Z.shiftl (Z.pos p) (- e) = Z.pos m →
  binary_round prec emax s p 0 = S754_finite s m e.
Proof.
  unfold bounded, canonical_mantissa.
  intros [Hcan Hmax]%andb_true_iff Hp Hm.
  apply Z.eqb_eq in Hcan. apply Z.leb_le in Hmax.
  unfold binary_round, shl_align. rewrite Z.add_0_r, Z.sub_0_r.
  destruct e as [|k|k].
  - simpl in Hp. injection Hp as <-. rewrite Z.add_0_r in Hcan.
    rewrite Hcan.
    apply binary_round_aux_exact; [by rewrite Z.add_0_r|done].
  - rewrite shiftl_pos_iter_xO in Hp. injection Hp as <-.
    rewrite digits2_pos_iter_xO.
    assert (Hd : Z.pos (digits2_pos m) = 53)
      by (unfold fexp, SpecFloat.emin, prec, emax in Hcan; lia).
    replace (fexp prec emax (Z.pos (digits2_pos m + k)))
      with (Z.pos k)
      by (unfold fexp, SpecFloat.emin, prec, emax; lia).
    unfold binary_round_aux, shr_fexp.
    cbn [Zdigits2 shr_record_of_loc]. rewrite digits2_pos_iter_xO.
    replace (fexp prec emax (Z.pos (digits2_pos m + k) + 0) - 0)
      with (Z.pos k)
      by (unfold fexp, SpecFloat.emin, prec, emax; lia).
    cbn [shr]. rewrite iter_shr_1_iter_xO.
    cbn [shr_m loc_of_shr_record round_nearest_even Zdigits2
         shr_record_of_loc].
    rewrite Z.add_0_l, Hcan, Z.sub_diag. cbn [shr shr_m].
    by rewrite (proj2 (Z.leb_le _ _) Hmax).
  - change (- Z.neg k) with (Z.pos k) in Hm.
    rewrite shiftl_pos_iter_xO in Hm. injection Hm as <-.
    rewrite digits2_pos_iter_xO in Hcan.
    replace (fexp prec emax (Z.pos (digits2_pos p)))
      with (Z.neg k)
      by (unfold fexp, SpecFloat.emin, prec, emax in *; lia).
    by apply binary_round_aux_exact; [rewrite digits2_pos_iter_xO|].
Qed.
End ExactIntegers.


(** *** [AsInt] and the fraction *)

Section AsIntFacts.
Implicit Types (x : spec_float) (z : Z).

Lemma float64_eq_refl_finite s m e :
  float64_eq (S754_finite s m e) (S754_finite s m e) = true.
Proof.
  unfold float64_eq, SFeqb. simpl.
  rewrite Z.compare_refl.
  change (Pos.compare_cont Eq m m) with (Pos.compare m m).
  rewrite Pos.compare_refl. by destruct s.
Qed.

Lemma in_int64_small z : (Z.abs z < 2 ^ 53)%Z → in_int64 z = true.
Proof.
  intros Hz. unfold in_int64, int64_min, int64_max.
  apply andb_true_iff. split; apply Z.leb_le; lia.
Qed.

(** An integer below 54 bits survives [float64] and [AsInt]. *)
Lemma AsInt_float64_of_int unrepresentable z :
  (Z.abs z < 2 ^ 53)%Z →
  AsInt unrepresentable (float64_of_int z) = (z, true).
Proof.
  intros Hz. pose proof (in_int64_small z Hz) as Hin.
  destruct z as [|p|p]; [done| |].
  - destruct (binary_round_small false p Hz) as (m & e & Hx & Hm & _).
    unfold AsInt, int64_of_float64, float64_of_int. cbn [binary_normalize].
    rewrite Hx. cbn [truncate cond_Zopp]. rewrite Hm, Hin.
    cbn [binary_normalize]. rewrite Hx. by rewrite float64_eq_refl_finite.
  - destruct (binary_round_small true p Hz) as (m & e & Hx & Hm & _).
    unfold AsInt, int64_of_float64, float64_of_int. cbn [binary_normalize].
    rewrite Hx. cbn [truncate cond_Zopp]. rewrite Hm.
    change (- Z.pos p)%Z with (Z.neg p). rewrite Hin.
    cbn [binary_normalize]. rewrite Hx. by rewrite float64_eq_refl_finite.
Qed.

(** [AsInt] succeeds only on floats without fraction, whatever the
    conversion of an unrepresentable float gives. *)
Lemma AsInt_integral unrepresentable x :
  (AsInt unrepresentable x).2 = true → integral x = true.
Proof.
  unfold AsInt. cbn [snd]. intros Heq.
  apply (float64_eq_integral _ _ Heq), float64_of_int_integral.
  apply int64_of_float64_in_int64.
Qed.

(** [AsInt] succeeds on every valid float without fraction whose
    integer is an [int64], with that integer. *)
Lemma AsInt_of_integral unrepresentable x z :
  valid_binary prec emax x = true →
  integral x = true →
  truncate x = Some z →
  in_int64 z = true →
  AsInt unrepresentable x = (z, true).
Proof.
  intros Hvalid Hint Hz Hin. unfold AsInt, int64_of_float64.
  rewrite Hz, Hin. f_equal.
  destruct x as [s|s| |s m e]; try done.
  - by simplify_eq/=.
  - cbn [truncate valid_binary integral] in *. apply Z.eqb_eq in Hint.
    destruct (Z.shiftl (Z.pos m) e) as [|p|p] eqn:Hp.
    + by rewrite Z.shiftl_0_l in Hint.
    + assert (Hx : float64_of_int z = S754_finite s m e).
      { simplify_eq. unfold float64_of_int.
        destruct s; cbn [cond_Zopp Z.opp binary_normalize];
          by apply binary_round_integral_inv. }
      rewrite Hx. apply float64_eq_refl_finite.
    + pose proof (Z.shiftl_nonneg (Z.pos m) e). lia.
Qed.
End AsIntFacts.

Section ChainFacts.
Context {A B C : Type} `{!Zero B, !Zero C}.
Implicit Types (f : Mapper A B) (g : Mapper B C) (v : list A).

(** Lifting two mappers one after the other is lifting their chain. *)
Lemma All_chain f g v :
  All (chain f g) v =
    let '(w, ok) := All f v in if ok then All g w else (zero, false).
Proof.
  rewrite !All_eq.
  induction v as [|x v IH]; [done|]. simpl. unfold chain at 1 3.
  destruct (f x) as [y [|]]; simpl; [|reflexivity].
  destruct (forallb (λ x, (f x).2) v) eqn:Ef; simpl in *.
  - rewrite All_eq in *. simpl.
    destruct ((g y).2); simpl; [|by destruct (forallb _ v)].
    destruct (forallb (λ x, (chain f g x).2) v),
      (forallb (λ x, (g x).2) (map (λ x, (f x).1) v)); congruence.
  - destruct ((g y).2); simpl; [|done].
    by destruct (forallb (λ x, (chain f g x).2) v).
Qed.

Lemma Map_All_chain `{!Zero A} (n : Node (list A)) f g :
  Map (Map n (All f)) (All g) = Map n (All (chain f g)).
Proof.
  destruct n as [|v]; [done|].
  rewrite !Map_value, All_chain.
  destruct (All f v) as [w [|]]; simpl; [|done].
  by rewrite Map_value.
Qed.
End ChainFacts.

(** ** Properties of the methods over the heap *)

Module StoreFacts.
Import Store.

Section ReadOnly.
Context {A B : Type}.

Lemma read_only_ret (a : A) : read_only (mret a).
Proof. intros h. by exists a. Qed.

Lemma read_only_bind (c : M A) (f : A → M B) :
  read_only c → (∀ a, read_only (f a)) → read_only (c ≫= f).
Proof.
  intros Hc Hf h. destruct (Hc h) as [a Ha].
  destruct (Hf a h) as [b Hb]. exists b.
  unfold mbind, M_bind. by rewrite Ha.
Qed.

(** A step that returns without writing, then the rest. *)
Lemma bind_read (c : M A) (f : A → M B) a h :
  c h = Some (a, h) → (c ≫= f) h = f a h.
Proof. intros Ha. unfold mbind, M_bind. by rewrite Ha. Qed.
End ReadOnly.

Lemma read_only_mapaccess o k : read_only (mapaccess o k).
Proof. intros h. by eexists. Qed.

Lemma index_in_range keys i h :
  i < length keys → ∃ k, index keys i h = Some (k, h).
Proof.
  intros Hi. destruct (lookup_lt_is_Some_2 keys i Hi) as [k Hk].
  exists k. unfold index. by rewrite Hk.
Qed.

Lemma read_only_get o k : read_only (get o k).
Proof.
  apply read_only_bind; [apply read_only_mapaccess|].
  intros r. apply read_only_ret.
Qed.

(** The loop returns, writes nothing and leaves an index in range. *)
Lemma Get_for_read keys rest n i h :
  i + rest < length keys →
  ∃ n' i', Get_for keys rest n i h = Some ((n', i'), h) ∧ i' < length keys.
Proof.
  revert n i. induction rest as [|rest IH]; intros n i Hi.
  - exists n, i. split; [done|lia].
  - cbn [Get_for].
    destruct (index_in_range keys i h ltac:(lia)) as [k Hk].
    rewrite (bind_read _ _ k h Hk).
    destruct (read_only_get (Value n) k h) as [n0 Hn0].
    rewrite (bind_read _ _ n0 h Hn0).
    destruct (Empty (Map n0 AsObject)).
    + eexists _, i. split; [done|lia].
    + apply IH. lia.
Qed.

Lemma read_only_Get o keys : read_only (Get o keys).
Proof.
  intros h. unfold Get.
  destruct (length keys) as [|[|len]] eqn:Hlen.
  - by eexists.
  - destruct (index_in_range keys 0 h ltac:(lia)) as [k Hk].
    rewrite (bind_read _ _ k h Hk). apply read_only_get.
  - destruct (Get_for_read keys (S (S len) - 1) (ValueNode o) 0 h
                ltac:(lia)) as (n & i & Hfor & Hi).
    rewrite (bind_read _ _ (n, i) h Hfor).
    destruct (index_in_range keys i h Hi) as [k Hk].
    rewrite (bind_read _ _ k h Hk). apply read_only_get.
Qed.

Lemma read_only_Map_call {A B} `{!Zero A} (c : M (Node A))
    (m : Mapper A B) :
  read_only c → read_only (Map_call c m).
Proof.
  intros Hc. apply read_only_bind; [done|].
  intros n. apply read_only_ret.
Qed.

Lemma entries_insert h a t : entries (<[a := t]> h) (Some a) = t.
Proof. unfold entries. by rewrite lookup_insert_eq. Qed.

(** *** What [Get] returns *)

Lemma index_middle before k keys h :
  index (before ++ k :: keys) (length before) h = Some (k, h).
Proof. unfold index. by rewrite list_lookup_middle. Qed.

Lemma get_eq o k h : get o k h = Some (of_option (entries h o !! k), h).
Proof. reflexivity. Qed.

(** The loop, started at index [length before] in the map behind [o],
    stops at a node and a key whose lookup is what the keys from there
    on reach. *)
Lemma Get_for_heap_reach keys before o h :
  keys ≠ [] →
  ∃ n i k,
    Get_for (before ++ keys) (length keys - 1) (ValueNode o)
      (length before) h = Some ((n, i), h)
    ∧ (before ++ keys) !! i = Some k
    ∧ entries h (Value n) !! k = reach h o keys.
Proof.
  revert before o.
  induction keys as [|k keys IH]; intros before o Hne; [done|].
  destruct keys as [|k' keys].
  - exists (ValueNode o), (length before), k.
    split_and!; [done|by rewrite list_lookup_middle|done].
  - replace (length (k :: k' :: keys) - 1) with (S (length keys))
      by (simpl; lia).
    cbn [Get_for].
    rewrite (bind_read _ _ k h (index_middle before k (k' :: keys) h)).
    rewrite (bind_read _ _ _ h (get_eq (Value (ValueNode o)) k h)).
    cbn [Value ValueNode reach].
    assert (Hrest : ∀ n0 : Node any,
      Map n0 AsObject = EmptyNode →
      reach h o (k :: k' :: keys) = None →
      ∃ n i k0,
        (if Empty (Map n0 AsObject)
         then mret (Map n0 AsObject, length before)
         else Get_for (before ++ k :: k' :: keys) (length keys)
                (Map n0 AsObject) (S (length before))) h = Some ((n, i), h)
        ∧ (before ++ k :: k' :: keys) !! i = Some k0
        ∧ entries h (Value n) !! k0 = None).
    { intros n0 -> _. exists EmptyNode, (length before), k.
      split_and!; [done|by rewrite list_lookup_middle|done]. }
    destruct (entries h o !! k) as [v|] eqn:Ev; cbn [of_option].
    + destruct v as [| | | | |o'| |];
        try (apply Hrest; [done|by cbn [reach]; rewrite Ev]).
      rewrite (Map_value_ok _ AsObject o') by done. cbn [Empty ValueNode].
      destruct (IH (before ++ [k]) o' ltac:(done))
        as (n & i & k0 & Hfor & Hi & Hk0).
      rewrite <- app_assoc, length_app in Hfor. cbn [length app] in Hfor.
      replace (length before + 1) with (S (length before)) in Hfor by lia.
      replace (S (length keys) - 1) with (length keys) in Hfor by lia.
      rewrite <- app_assoc in Hi. cbn [app] in Hi.
      exists n, i, k0. by split_and!.
    + apply Hrest; [done|by cbn [reach]; rewrite Ev].
Qed.

Lemma Get_heap_reach o keys h :
  Get o keys h = Some (of_option (reach h o keys), h).
Proof.
  destruct keys as [|k [|k' keys]]; [done..|].
  unfold Get. cbn [length].
  destruct (Get_for_heap_reach (k :: k' :: keys) [] o h ltac:(done))
    as (n & i & k0 & Hfor & Hi & Hk0).
  cbn [app length] in Hfor, Hi.
  rewrite (bind_read _ _ (n, i) h Hfor).
  assert (Hindex : index (k :: k' :: keys) i h = Some (k0, h))
    by (unfold index; by rewrite Hi).
  rewrite (bind_read _ _ k0 h Hindex).
  by rewrite get_eq, Hk0.
Qed.
End StoreFacts.

(** ** The heap methods refine the tree methods *)

Section Refinement.
Implicit Types (h : Store.heap) (o : Store.Object) (t : Object).

Lemma reach_repr h o t keys :
  repr_object h o t →
  option_Forall2 (repr h) (Store.reach h o keys) (reach t keys).
Proof.
  revert o t. induction keys as [|k keys IH]; intros o t Hot.
  - constructor. by constructor.
  - cbn [Store.reach reach]. destruct keys as [|k' keys]; [apply Hot|].
    destruct (Hot k) as [v v' Hv|]; [|constructor].
    destruct Hv; try constructor. by apply IH.
Qed.

(** On a heap that holds the tree [t] behind [o], [Get] over the heap
    returns, writes nothing, and its node unfolds to the node of [Get]
    over the tree. *)
Lemma Get_refines h o t keys :
  repr_object h o t →
  ∃ n n',
    Store.Get o keys h = Some (n, h)
    ∧ Get t keys = Some n'
    ∧ node_rel (repr h) n n'.
Proof.
  intros Hot. eexists _, _.
  split; [apply StoreFacts.Get_heap_reach|]. split; [apply Get_reach|].
  destruct (reach_repr h o t keys Hot); by constructor.
Qed.

(** The relation is inhabited beyond the empty heap. *)
Example foo_bar_baz_repr :
  repr_object foo_bar_baz_heap (Some 1%positive) foo_bar_baz.
Proof.
  intros k. unfold foo_bar_baz.
  destruct (decide (k = "foo")) as [->|Hk].
  - rewrite lookup_singleton_eq. constructor. constructor.
    intros k. destruct (decide (k = "bar")) as [->|Hk].
    + rewrite lookup_singleton_eq. constructor. constructor.
    + rewrite lookup_singleton_ne by done.
      replace (Store.entries foo_bar_baz_heap (Some 2%positive) !! k)
        with (@None Store.any); [constructor|].
      symmetry. by apply lookup_singleton_ne.
  - rewrite lookup_singleton_ne by done.
    replace (Store.entries foo_bar_baz_heap (Some 1%positive) !! k)
      with (@None Store.any); [constructor|].
    symmetry. by apply lookup_singleton_ne.
Qed.
End Refinement.

(** ** The scenarios of the README *)

Example readme_getters (unrepresentable : spec_float → Z) :
  GetInt unrepresentable readme ["obj"; "num"] = Some (ValueNode 42%Z)
  ∧ GetString readme ["obj"; "str"] = Some (ValueNode "abc")
  ∧ GetBools readme ["arr"] = Some (ValueNode [true; false]).
Proof. by split_and!. Qed.

Example readme_defaults :
  Get readme ["xyz"] = Some EmptyNode
  ∧ GetString readme ["obj"; "num"] = Some EmptyNode
  ∧ Or (@EmptyNode string) "def" = "def".
Proof. by split_and!. Qed.

(** The object that [Get()] boxes has the dynamic type [Object], which
    the assertion of [AsObject] does not match. *)
Remark GetObject_no_keys (o : Object) : GetObject o [] = Some EmptyNode.
Proof. reflexivity. Qed.

(** ** The statements of the specification *)

(** C1. For every object [o] and keys [keys], [Get] returns a node; it
    is empty exactly when some step of the traversal fails (a key is
    absent, or the value under a key that is not the last is not a map),
    and otherwise it is the non-empty node of the value reached at the
    end of [keys].  After a failing step the result is empty whatever
    keys follow: on [{"foo": {"bar": "baz"}}] the keys [foo, bar, baz]
    give the empty node. *)
Theorem Get_empty_iff_stuck (o : Object) (keys : list string) :
  (∃ n, Get o keys = Some n
        ∧ (Empty n = true ↔ stuck o keys)
        ∧ (¬ stuck o keys →
           ∃ v, reach o keys = Some v ∧ n = ValueNode v))
  ∧ (∀ more, stuck o keys → Get o (keys ++ more) = Some EmptyNode)
  ∧ Get foo_bar_baz ["foo"; "bar"; "baz"] = Some EmptyNode.
Proof.
  split_and!; [| |reflexivity].
  - exists (of_option (reach o keys)). split; [apply Get_reach|].
    rewrite <- reach_None_stuck.
    destruct (reach o keys) as [v|]; simpl.
    + split; [done|]. intros _. by exists v.
    + split; [done|]. by intros [].
  - intros more Hs. rewrite Get_reach.
    apply (stuck_app _ _ more), reach_None_stuck in Hs. by rewrite Hs.
Qed.

Lemma Get_empty_iff_stuck_witness :
  stuck foo_bar_baz ["foo"; "bar"; "baz"]
  ∧ Get foo_bar_baz (["foo"; "bar"; "baz"] ++ ["qux"]) = Some EmptyNode.
Proof.
  assert (H : stuck foo_bar_baz ["foo"; "bar"; "baz"]).
  { eapply stuck_below; [reflexivity|reflexivity|].
    eapply stuck_shape; [reflexivity|discriminate|reflexivity]. }
  split; [exact H|].
  exact (proj1 (proj2 (Get_empty_iff_stuck foo_bar_baz ["foo"; "bar"; "baz"]))
           ["qux"] H).
Defined.

(** C2. For every [float64] [x], [AsInt(x)] yields [w = int64(x)] and
    succeeds exactly when [float64(w) == x]; [w] is an [int64], and it is
    [x] with its fraction discarded whenever that is an [int64].  A
    success means that [x] has no fraction, and a valid [x] whose integer
    part is an [int64] succeeds exactly when it has no fraction.
    [AsInt(42.0)] succeeds with 42, [AsInt(42.01)] fails and
    [AsInt(-7.0)] succeeds with -7. *)
Theorem AsInt_round_trip (unrepresentable : spec_float → Z)
    (x : spec_float) :
  let w := int64_of_float64 unrepresentable x in
  AsInt unrepresentable x = (w, float64_eq (float64_of_int w) x)
  ∧ in_int64 w = true
  ∧ (∀ z, truncate x = Some z → in_int64 z = true → w = z)
  ∧ ((AsInt unrepresentable x).2 = true → integral x = true)
  ∧ (∀ z, valid_binary prec emax x = true →
          truncate x = Some z → in_int64 z = true →
          AsInt unrepresentable x = (z, integral x))
  ∧ AsInt unrepresentable float_42 = (42%Z, true)
  ∧ (AsInt unrepresentable float_42_01).2 = false
  ∧ AsInt unrepresentable float_minus_7 = ((-7)%Z, true).
Proof.
  split_and!; try reflexivity.
  - unfold AsInt. by rewrite float64_eq_sym.
  - apply int64_of_float64_in_int64.
  - intros z Hz Hin. unfold int64_of_float64. by rewrite Hz, Hin.
  - apply AsInt_integral.
  - intros z Hvalid Hz Hin. destruct (integral x) eqn:Hint.
    + by apply AsInt_of_integral.
    + pose proof (AsInt_integral unrepresentable x) as Hsucc.
      unfold AsInt in *. cbn [snd] in Hsucc.
      unfold int64_of_float64 in *. rewrite Hz, Hin in *.
      destruct (float64_eq x (float64_of_int z)); [|done].
      rewrite Hsucc in Hint; done.
Qed.

Lemma AsInt_round_trip_witness :
  valid_binary prec emax float_42_01 = true
  ∧ truncate float_42_01 = Some 42%Z
  ∧ in_int64 42 = true
  ∧ AsInt (fun _ => 0%Z) float_42_01 = (42%Z, integral float_42_01).
Proof.
  split_and!; [reflexivity..|].
  exact (proj1 (proj2 (proj2 (proj2 (proj2
           (AsInt_round_trip (fun _ => 0%Z) float_42_01)))))
           42%Z eq_refl eq_refl eq_refl).
Defined.

(** C3. Every typed getter is the traversal followed by its coercions:
    with [n] the node that [Get] returns, a scalar getter returns
    [Map(n, AsT)], [GetInt] returns [Map(Map(n, AsFloat), AsInt)] and an
    array getter returns [Map(Map(n, AsArray), All(AsT))]; for [GetInts],
    written as [Map(GetFloats, All(AsInt))], the coercion [AsT] of an
    element is [AsFloat] followed by [AsInt]. *)
Theorem getters_compose (unrepresentable : spec_float → Z) (o : Object)
    (keys : list string) :
  ∃ n, Get o keys = Some n
    ∧ GetArray o keys = Some (Map n AsArray)
    ∧ GetBool o keys = Some (Map n AsBool)
    ∧ GetFloat o keys = Some (Map n AsFloat)
    ∧ GetObject o keys = Some (Map n AsObject)
    ∧ GetString o keys = Some (Map n AsString)
    ∧ GetInt unrepresentable o keys =
        Some (Map (Map n AsFloat) (AsInt unrepresentable))
    ∧ GetArrays o keys = Some (Map (Map n AsArray) (All AsArray))
    ∧ GetBools o keys = Some (Map (Map n AsArray) (All AsBool))
    ∧ GetFloats o keys = Some (Map (Map n AsArray) (All AsFloat))
    ∧ GetObjects o keys = Some (Map (Map n AsArray) (All AsObject))
    ∧ GetStrings o keys = Some (Map (Map n AsArray) (All AsString))
    ∧ GetInts unrepresentable o keys =
        Some (Map (Map n AsArray)
                (All (chain AsFloat (AsInt unrepresentable)))).
Proof.
  exists (of_option (reach o keys)).
  unfold GetInts, GetStrings, GetObjects, GetFloats, GetBools, GetArrays,
    GetInt, GetString, GetObject, GetFloat, GetBool, GetArray, Map_call.
  rewrite Get_reach. cbn [mbind option_bind].
  split_and!; try reflexivity.
  by rewrite Map_All_chain.
Qed.

(** C4. For every mapper [m] and input slice [v], [All(m)] succeeds
    exactly when [m] succeeds on every element, and then returns the
    results of [m] on the elements, as many and in the order of the
    input; when [m] fails on some element, wherever it stands, [All(m)]
    fails and returns the nil slice, no part of the results. *)
Theorem All_every_or_none {S T} `{!Zero T} (m : Mapper S T) (v : list S) :
  ((All m v).2 = true ↔ Forall (fun x => (m x).2 = true) v)
  ∧ (Forall (fun x => (m x).2 = true) v →
     All m v = (map (fun x => (m x).1) v, true))
  ∧ (Exists (fun x => (m x).2 = false) v → All m v = ([], false)).
Proof.
  rewrite All_eq.
  destruct (forallb (fun x => (m x).2) v) eqn:E.
  - assert (Hall : Forall (fun x => (m x).2 = true) v).
    { apply Forall_forall. intros x Hx.
      apply (proj1 (forallb_forall _ v) E), list_elem_of_In, Hx. }
    split_and!; [done|done|].
    intros Hex. apply Exists_exists in Hex as (x & Hx & Hfail).
    rewrite Forall_forall in Hall. specialize (Hall x Hx). congruence.
  - assert (Hnot : ¬ Forall (fun x => (m x).2 = true) v).
    { intros Hall. rewrite Forall_forall in Hall.
      assert (forallb (fun x => (m x).2) v = true); [|congruence].
      apply forallb_forall. intros x Hx. by apply Hall, list_elem_of_In. }
    split_and!; [simpl; split; [done|by intros ?]|by intros ?|done].
Qed.

Lemma All_every_or_none_witness :
  (Forall (fun x => (AsBool x).2 = true) [Bool true; Bool false]
   ∧ All AsBool [Bool true; Bool false] = ([true; false], true))
  ∧ (Exists (fun x => (AsBool x).2 = false) [Bool true; Nil; Bool false]
     ∧ All AsBool [Bool true; Nil; Bool false] = ([], false)).
Proof.
  split.
  - assert (H : Forall (fun x => (AsBool x).2 = true) [Bool true; Bool false])
      by (repeat constructor).
    split; [exact H|].
    exact (proj1 (proj2 (All_every_or_none AsBool _)) H).
  - assert (H : Exists (fun x => (AsBool x).2 = false)
                  [Bool true; Nil; Bool false])
      by (apply Exists_cons_tl, Exists_cons_hd; reflexivity).
    split; [exact H|].
    exact (proj2 (proj2 (All_every_or_none AsBool _)) H).
Defined.

(** C5. For every list of mappers and every input [v], [One] returns
    the result of the first listed mapper that succeeds on [v], whatever
    the mappers after it would do, and fails only when every mapper fails
    on [v]; for two mappers: the result of the first when it succeeds, of
    the second when only the second does. *)
Theorem One_first_listed_wins {S T} `{!Zero T}
    (mappers : list (Mapper S T)) (v : S) :
  (∀ before m after,
     mappers = before ++ m :: after →
     Forall (fun m' => (m' v).2 = false) before →
     (m v).2 = true →
     One mappers v = m v)
  ∧ ((One mappers v).2 = false ↔
     Forall (fun m => (m v).2 = false) mappers)
  ∧ (∀ c1 c2 : Mapper S T, (c1 v).2 = true → One [c1; c2] v = c1 v)
  ∧ (∀ c1 c2 : Mapper S T,
       (c1 v).2 = false → (c2 v).2 = true → One [c1; c2] v = c2 v).
Proof.
  split_and!.
  - intros before m after -> Hbefore Hm. by apply One_first.
  - rewrite One_ok. rewrite <- not_true_iff_false, existsb_exists.
    rewrite Forall_forall. split.
    + intros Hnone m Hm. apply not_true_iff_false. intros Hok.
      apply Hnone. exists m. split; [by apply list_elem_of_In|done].
    + intros Hall (m & Hm & Hok).
      apply list_elem_of_In, Hall in Hm. congruence.
  - intros c1 c2 H1. by apply (One_first [] c1 [c2]).
  - intros c1 c2 H1 H2. apply (One_first [c1] c2 []); [|done].
    by repeat constructor.
Qed.

Lemma One_first_listed_wins_witness :
  ((AsBool (Bool false)).2 = true
   ∧ One [AsBool; fun _ => (true, true)] (Bool false) = (false, true))
  ∧ ((AsBool Nil).2 = false
     ∧ One [AsBool; fun _ => (true, true)] Nil = (true, true)).
Proof.
  split.
  - split; [reflexivity|].
    exact (proj1 (proj2 (proj2
             (One_first_listed_wins [AsBool; fun _ => (true, true)]
                (Bool false))))
             AsBool (fun _ => (true, true)) eq_refl).
  - split; [reflexivity|].
    exact (proj2 (proj2 (proj2
             (One_first_listed_wins [AsBool; fun _ => (true, true)] Nil)))
             AsBool (fun _ => (true, true)) eq_refl eq_refl).
Defined.

(** C6. For every node [n] and mapper [m], [Map(n, m)] is a non-empty
    node holding the output of [m] exactly when [n] is non-empty and [m]
    succeeds on its value; it is empty when [n] is empty, whatever [m]
    is, and when [m] fails on the value of [n].  [Map] is a total
    function: it returns a node in every case. *)
Theorem Map_value_or_empty {S T} `{!Zero S} (n : Node S) (m : Mapper S T) :
  (Empty (Map n m) = false ↔ Empty n = false ∧ (m (Value n)).2 = true)
  ∧ (∀ v w, n = ValueNode v → m v = (w, true) → Map n m = ValueNode w)
  ∧ (∀ v w, n = ValueNode v → m v = (w, false) → Map n m = EmptyNode)
  ∧ (n = EmptyNode → Map n m = EmptyNode).
Proof.
  split_and!.
  - destruct n as [|v]; [by split; [|intros []]|].
    rewrite Map_value. simpl. destruct (m v) as [w []]; simpl; [done|].
    by split; [|intros []].
  - intros v w -> E. by apply Map_value_ok.
  - intros v w -> E. by eapply Map_value_fail.
  - by intros ->.
Qed.

Lemma Map_value_or_empty_witness :
  (AsBool (Bool true) = (true, true)
   ∧ Map (ValueNode (Bool true)) AsBool = ValueNode true)
  ∧ (AsBool (String "yes") = (false, false)
     ∧ Map (ValueNode (String "yes")) AsBool = EmptyNode).
Proof.
  split.
  - split; [reflexivity|].
    exact (proj1 (proj2 (Map_value_or_empty (ValueNode (Bool true)) AsBool))
             (Bool true) true eq_refl eq_refl).
  - split; [reflexivity|].
    exact (proj1 (proj2 (proj2
             (Map_value_or_empty (ValueNode (String "yes")) AsBool)))
             (String "yes") false eq_refl eq_refl).
Defined.

(** C7. [Value()] of a node holding [v] is [v] and of an empty node the
    zero value of [T]; [Or(d)] is the held value when there is one and
    [d] otherwise; [OrGet(f)] of a node holding [v] is [v] for every
    supplier [f], which is not called (the state around it is untouched
    and its call count unchanged), and of an empty node it is the result
    of one call of [f]. *)
Theorem Node_accessors {T W} `{!Zero T} (v d : T) (f : Supplier W T)
    (w : W) (calls : nat) :
  Value (ValueNode v) = v
  ∧ Value (@EmptyNode T) = zero
  ∧ Or (ValueNode v) d = v
  ∧ Or EmptyNode d = d
  ∧ OrGet (ValueNode v) f w = (v, w)
  ∧ OrGet EmptyNode f w = f w
  ∧ OrGet (ValueNode v) (counted f) (w, calls) = (v, (w, calls))
  ∧ OrGet EmptyNode (counted f) (w, calls) = ((f w).1, ((f w).2, S calls)).
Proof.
  split_and!; try reflexivity.
  simpl. by destruct (f w).
Qed.

(** C8. For every object [o], [Get] with no key returns a non-empty
    node whose value is [o] itself. *)
Theorem Get_no_keys (o : Object) :
  ∃ n, Get o [] = Some n ∧ Empty n = false ∧ Value n = Boxed o.
Proof. by exists (ValueNode (Boxed o)). Qed.

(** C9. [Get] and each typed getter return and leave every map as it
    was, the object they are called on included: the heap after the call
    is the heap before it.  [Set] and [Remove] write the map: after
    [Set(k, v)] the key [k] holds [v] and after [Remove(k)] it is
    absent. *)
Theorem getters_read_only (unrepresentable : spec_float → Z)
    (o : Store.Object) (keys : list string) (h : Store.heap) :
  (∃ n, Store.Get o keys h = Some (n, h))
  ∧ (∃ n, Store.GetArray o keys h = Some (n, h))
  ∧ (∃ n, Store.GetBool o keys h = Some (n, h))
  ∧ (∃ n, Store.GetFloat o keys h = Some (n, h))
  ∧ (∃ n, Store.GetInt unrepresentable o keys h = Some (n, h))
  ∧ (∃ n, Store.GetObject o keys h = Some (n, h))
  ∧ (∃ n, Store.GetString o keys h = Some (n, h))
  ∧ (∃ n, Store.GetArrays o keys h = Some (n, h))
  ∧ (∃ n, Store.GetBools o keys h = Some (n, h))
  ∧ (∃ n, Store.GetFloats o keys h = Some (n, h))
  ∧ (∃ n, Store.GetInts unrepresentable o keys h = Some (n, h))
  ∧ (∃ n, Store.GetObjects o keys h = Some (n, h))
  ∧ (∃ n, Store.GetStrings o keys h = Some (n, h))
  ∧ (∀ a k v, ∃ h',
       Store.Set_ (Some a) k v h = Some ((), h')
       ∧ Store.entries h' (Some a) !! k = Some v)
  ∧ (∀ a k, ∃ h',
       Store.Remove (Some a) k h = Some ((), h')
       ∧ Store.entries h' (Some a) !! k = None).
Proof.
  pose proof (StoreFacts.read_only_Get o keys) as HGet.
  split_and!;
    try (by repeat first
           [ apply HGet
           | apply StoreFacts.read_only_Map_call ]).
  - intros a k v. eexists. split; [reflexivity|].
    by rewrite StoreFacts.entries_insert, lookup_insert_eq.
  - intros a k. eexists. split; [reflexivity|].
    by rewrite StoreFacts.entries_insert, lookup_delete_eq.
Qed.

(** C10. When the key [k] is present in [o] with the value null,
    [Get(k)] is a non-empty node holding null; for every [o] and [k],
    [Get(k)] is empty exactly when [k] is absent from [o], so never
    because the stored value is null. *)
Theorem Get_null_present (o : Object) (k : string) :
  (o !! k = Some Nil → Get o [k] = Some (ValueNode Nil))
  ∧ (Get o [k] = Some EmptyNode ↔ o !! k = None).
Proof.
  rewrite Get_reach. simpl. split.
  - by intros ->.
  - destruct (o !! k); split; intros; simplify_eq; done.
Qed.

Lemma Get_null_present_witness :
  a_null !! "a" = Some Nil ∧ Get a_null ["a"] = Some (ValueNode Nil).
Proof.
  split; [reflexivity|].
  apply (proj1 (Get_null_present a_null "a")). reflexivity.
Defined.

(** ** Further properties: writing and reading a map *)

Section StoreWrites.
Implicit Types (a b : Store.addr) (k : string) (v : Store.any)
  (h : Store.heap) (o : Store.Object).

Lemma Store_Get_one o k h :
  Store.Get o [k] h = Some (of_option (Store.entries h o !! k), h).
Proof. reflexivity. Qed.

Lemma Store_Has_eq o k h :
  Store.Has o k h = Some (bool_decide (is_Some (Store.entries h o !! k)), h).
Proof.
  unfold Store.Has, Store.mapaccess, mbind, Store.M_bind. cbn.
  by destruct (Store.entries h o !! k).
Qed.

Lemma entries_insert_ne h a b t :
  a ≠ b → Store.entries (<[a := t]> h) (Some b) = Store.entries h (Some b).
Proof. intros Hab. unfold Store.entries. by rewrite lookup_insert_ne. Qed.

Lemma Set_eq a k v h :
  Store.Set_ (Some a) k v h =
    Some ((), <[a := <[k := v]> (Store.entries h (Some a))]> h).
Proof. reflexivity. Qed.

Lemma Remove_eq a k h :
  Store.Remove (Some a) k h =
    Some ((), <[a := delete k (Store.entries h (Some a))]> h).
Proof. reflexivity. Qed.
End StoreWrites.

(** X1. After [Set(k, v)] on an object that is not nil, [Get(k)]
    returns a non-empty node holding [v] and [Has(k)] is true. *)
Theorem Set_then_Get (a : Store.addr) (k : string) (v : Store.any)
    (h : Store.heap) :
  ∃ h', Store.Set_ (Some a) k v h = Some ((), h')
        ∧ Store.Get (Some a) [k] h' = Some (ValueNode v, h')
        ∧ Store.Has (Some a) k h' = Some (true, h').
Proof.
  eexists. split; [apply Set_eq|].
  rewrite Store_Get_one, Store_Has_eq, StoreFacts.entries_insert.
  by rewrite lookup_insert_eq.
Qed.

(** X2. [Set(k, v)] changes nothing else: under every other key of the
    object [Get] and [Has] return what they returned before, and the
    entries of every other map are as they were. *)
Theorem Set_frame (a : Store.addr) (k k' : string) (v : Store.any)
    (h : Store.heap) :
  k' ≠ k →
  ∃ h', Store.Set_ (Some a) k v h = Some ((), h')
        ∧ fst <$> Store.Get (Some a) [k'] h'
          = fst <$> Store.Get (Some a) [k'] h
        ∧ fst <$> Store.Has (Some a) k' h'
          = fst <$> Store.Has (Some a) k' h
        ∧ ∀ b, b ≠ a →
            Store.entries h' (Some b) = Store.entries h (Some b).
Proof.
  intros Hk. eexists. split; [apply Set_eq|].
  rewrite !Store_Get_one, !Store_Has_eq, StoreFacts.entries_insert.
  rewrite lookup_insert_ne by done. split_and!; [done..|].
  intros b Hb. by apply entries_insert_ne.
Qed.

Lemma Set_frame_witness :
  "bar" ≠ "foo"
  ∧ ∃ h', Store.Set_ (Some 1%positive) "foo" Store.Nil foo_bar_baz_heap
            = Some ((), h')
        ∧ fst <$> Store.Get (Some 1%positive) ["bar"] h'
          = fst <$> Store.Get (Some 1%positive) ["bar"] foo_bar_baz_heap
        ∧ fst <$> Store.Has (Some 1%positive) "bar" h'
          = fst <$> Store.Has (Some 1%positive) "bar" foo_bar_baz_heap
        ∧ ∀ b, b ≠ 1%positive →
            Store.entries h' (Some b)
            = Store.entries foo_bar_baz_heap (Some b).
Proof.
  split; [discriminate|].
  apply (Set_frame 1%positive "foo" "bar" Store.Nil foo_bar_baz_heap).
  discriminate.
Defined.

(** X3. After [Remove(k)], [Get(k)] returns the empty node and [Has(k)]
    is false, whether or not [k] was present. *)
Theorem Remove_then_Get (a : Store.addr) (k : string) (h : Store.heap) :
  ∃ h', Store.Remove (Some a) k h = Some ((), h')
        ∧ Store.Get (Some a) [k] h' = Some (EmptyNode, h')
        ∧ Store.Has (Some a) k h' = Some (false, h').
Proof.
  eexists. split; [apply Remove_eq|].
  rewrite Store_Get_one, Store_Has_eq, StoreFacts.entries_insert.
  by rewrite lookup_delete_eq.
Qed.

(** X4. [Remove(k)] changes nothing else: every other key of the object
    reads as before, the entries of every other map are as they were,
    and when [k] was absent the entries of the object itself are too. *)
Theorem Remove_frame (a : Store.addr) (k k' : string) (h : Store.heap) :
  k' ≠ k →
  ∃ h', Store.Remove (Some a) k h = Some ((), h')
        ∧ fst <$> Store.Get (Some a) [k'] h'
          = fst <$> Store.Get (Some a) [k'] h
        ∧ fst <$> Store.Has (Some a) k' h'
          = fst <$> Store.Has (Some a) k' h
        ∧ (∀ b, b ≠ a →
             Store.entries h' (Some b) = Store.entries h (Some b))
        ∧ (Store.entries h (Some a) !! k = None →
           Store.entries h' (Some a) = Store.entries h (Some a)).
Proof.
  intros Hk. eexists. split; [apply Remove_eq|].
  rewrite !Store_Get_one, !Store_Has_eq, StoreFacts.entries_insert.
  rewrite lookup_delete_ne by done. split_and!; [done..| |].
  - intros b Hb. by apply entries_insert_ne.
  - intros Habsent. by apply delete_id.
Qed.

Lemma Remove_frame_witness :
  "foo" ≠ "bar"
  ∧ ∃ h', Store.Remove (Some 1%positive) "bar" foo_bar_baz_heap
            = Some ((), h')
        ∧ fst <$> Store.Get (Some 1%positive) ["foo"] h'
          = fst <$> Store.Get (Some 1%positive) ["foo"] foo_bar_baz_heap
        ∧ fst <$> Store.Has (Some 1%positive) "foo" h'
          = fst <$> Store.Has (Some 1%positive) "foo" foo_bar_baz_heap
        ∧ (∀ b, b ≠ 1%positive →
             Store.entries h' (Some b)
             = Store.entries foo_bar_baz_heap (Some b))
        ∧ (Store.entries foo_bar_baz_heap (Some 1%positive) !! "bar" = None →
           Store.entries h' (Some 1%positive)
           = Store.entries foo_bar_baz_heap (Some 1%positive)).
Proof.
  split; [discriminate|].
  apply (Remove_frame 1%positive "bar" "foo" foo_bar_baz_heap).
  discriminate.
Defined.

(** X5. On the nil object the readers return "nothing" and [Remove] is
    a no-op, all without touching the heap, while [Set] panics:
    [Get] with at least one key is empty, [Has] is false, and [Get]
    without a key returns the boxed nil object. *)
Theorem nil_Object (k : string) (keys : list string) (v : Store.any)
    (h : Store.heap) :
  Store.Set_ None k v h = None
  ∧ Store.Remove None k h = Some ((), h)
  ∧ Store.Has None k h = Some (false, h)
  ∧ Store.Get None (k :: keys) h = Some (EmptyNode, h)
  ∧ Store.Get None [] h = Some (ValueNode (Store.Boxed None), h).
Proof.
  split_and!; try reflexivity.
  rewrite StoreFacts.Get_heap_reach. by destruct keys.
Qed.

(** X6. A second [Set] under the same key overwrites the first: the
    heap after [Set(k, v1)] and [Set(k, v2)] is the heap after
    [Set(k, v2)] alone. *)
Theorem Set_overwrites (a : Store.addr) (k : string) (v1 v2 : Store.any)
    (h : Store.heap) :
  ∃ h1 h2, Store.Set_ (Some a) k v1 h = Some ((), h1)
           ∧ Store.Set_ (Some a) k v2 h1 = Some ((), h2)
           ∧ Store.Set_ (Some a) k v2 h = Some ((), h2).
Proof.
  eexists _, _. split; [apply Set_eq|]. split; [apply Set_eq|].
  rewrite Set_eq, StoreFacts.entries_insert.
  by rewrite !insert_insert_eq.
Qed.

(** X7. [Remove] undoes the [Set] of a key that was absent: afterwards
    the entries of the object are what they were before the two calls,
    and so is the whole heap when the object's map was in it. *)
Theorem Set_then_Remove (a : Store.addr) (k : string) (v : Store.any)
    (h : Store.heap) :
  Store.entries h (Some a) !! k = None →
  ∃ h1 h2, Store.Set_ (Some a) k v h = Some ((), h1)
           ∧ Store.Remove (Some a) k h1 = Some ((), h2)
           ∧ Store.entries h2 (Some a) = Store.entries h (Some a)
           ∧ (is_Some (h !! a) → h2 = h).
Proof.
  intros Habsent. eexists _, _.
  split; [apply Set_eq|]. split; [apply Remove_eq|].
  rewrite !StoreFacts.entries_insert, delete_insert_id by done.
  split; [done|]. intros [t Ht].
  rewrite insert_insert_eq. apply insert_id.
  unfold Store.entries. by rewrite Ht.
Qed.

Lemma Set_then_Remove_witness :
  Store.entries foo_bar_baz_heap (Some 1%positive) !! "qux" = None
  ∧ ∃ h1 h2,
      Store.Set_ (Some 1%positive) "qux" Store.Nil foo_bar_baz_heap
        = Some ((), h1)
      ∧ Store.Remove (Some 1%positive) "qux" h1 = Some ((), h2)
      ∧ Store.entries h2 (Some 1%positive)
        = Store.entries foo_bar_baz_heap (Some 1%positive)
      ∧ (is_Some (foo_bar_baz_heap !! 1%positive) → h2 = foo_bar_baz_heap).
Proof.
  split; [reflexivity|].
  apply (Set_then_Remove 1%positive "qux" Store.Nil foo_bar_baz_heap).
  reflexivity.
Defined.

(** X8. A map is shared by reference: after [Set(k, v)] on the object
    that another object holds under the key [kx], [Get(kx, k)] on that
    other object returns [v]. *)
Theorem Set_seen_through_parent (a b : Store.addr) (kx k : string)
    (v : Store.any) (h : Store.heap) :
  a ≠ b →
  Store.entries h (Some a) !! kx = Some (Store.MapStringAny (Some b)) →
  ∃ h', Store.Set_ (Some b) k v h = Some ((), h')
        ∧ Store.Get (Some a) [kx; k] h' = Some (ValueNode v, h').
Proof.
  intros Hab Hkx. eexists. split; [apply Set_eq|].
  rewrite StoreFacts.Get_heap_reach. cbn [Store.reach].
  rewrite entries_insert_ne, Hkx by done.
  by rewrite StoreFacts.entries_insert, lookup_insert_eq.
Qed.

Lemma Set_seen_through_parent_witness :
  1%positive ≠ 2%positive
  ∧ Store.entries foo_bar_baz_heap (Some 1%positive) !! "foo"
    = Some (Store.MapStringAny (Some 2%positive))
  ∧ ∃ h', Store.Set_ (Some 2%positive) "qux" Store.Nil foo_bar_baz_heap
            = Some ((), h')
        ∧ Store.Get (Some 1%positive) ["foo"; "qux"] h'
          = Some (ValueNode Store.Nil, h').
Proof.
  split; [discriminate|]. split; [reflexivity|].
  apply (Set_seen_through_parent 1%positive 2%positive "foo" "qux"
           Store.Nil foo_bar_baz_heap); [discriminate|reflexivity].
Defined.

(** ** Further properties: the combinators *)

Section OneMore.
Context {S T : Type} `{!Zero T}.
Implicit Types (m : Mapper S T) (mappers : list (Mapper S T)) (v : S).

(** With a mapper to run, what was assigned before does not matter. *)
Lemma One_range_start mappers v (r r' : T * bool) :
  mappers ≠ [] → One_range mappers v r = One_range mappers v r'.
Proof. by destruct mappers. Qed.

Lemma One_range_app (before after : list (Mapper S T)) v (r : T * bool) :
  r.2 = false →
  One_range (before ++ after) v r =
    if (One_range before v r).2 then One_range before v r
    else One_range after v (One_range before v r).
Proof.
  revert r. induction before as [|m before IH]; intros r Hr; simpl.
  - by rewrite Hr.
  - destruct (m v).2 eqn:Hm; [by rewrite Hm|]. by apply IH.
Qed.
End OneMore.

(** X9. [One] of two [One]s is [One] of the two lists one after the
    other, when the second list is not empty. *)
Theorem One_flattens {S T} `{!Zero T} (before after : list (Mapper S T))
    (v : S) :
  after ≠ [] →
  One [One before; One after] v = One (before ++ after) v.
Proof.
  intros Hafter. unfold One at 1 4. rewrite One_range_app by done.
  cbn [One_range]. fold (One before v). fold (One after v).
  destruct (One before v).2; [done|].
  rewrite (One_range_start after v (One before v) (zero, false)) by done.
  by destruct (One after v).2.
Qed.

Lemma One_flattens_witness :
  [AsBool] ≠ []
  ∧ One [One [fun _ => (true, false)]; One [AsBool]] (Bool true)
    = One ([fun _ => (true, false)] ++ [AsBool]) (Bool true).
Proof.
  split; [discriminate|].
  apply (One_flattens [fun _ => (true, false)] [AsBool] (Bool true)).
  discriminate.
Defined.

(** X10. When every listed mapper fails, [One] returns what the last
    listed mapper returned, its value included, which need not be the
    zero value; with no mapper listed it returns the zero value and
    false. *)
Theorem One_all_fail {S T} `{!Zero T} (mappers : list (Mapper S T))
    (v : S) :
  Forall (fun m => (m v).2 = false) mappers →
  One mappers v = default (zero, false) ((.$ v) <$> last mappers).
Proof.
  intros Hfail. unfold One.
  rewrite <- (app_nil_r mappers) at 1.
  by rewrite One_range_skip.
Qed.

Lemma One_all_fail_witness :
  Forall (fun m : Mapper any bool => (m Nil).2 = false)
    [AsBool; fun _ => (true, false)]
  ∧ One [AsBool; fun _ => (true, false)] Nil = (true, false).
Proof.
  assert (H : Forall (fun m : Mapper any bool => (m Nil).2 = false)
                [AsBool; fun _ => (true, false)])
    by (repeat constructor).
  split; [exact H|].
  exact (One_all_fail [AsBool; fun _ => (true, false)] Nil H).
Defined.

(** X11. [All] goes through an append: on [v1 ++ v2] it succeeds exactly
    when it succeeds on [v1] and on [v2], and then returns the two
    results one after the other. *)
Theorem All_app {S T} `{!Zero T} (m : Mapper S T) (v1 v2 : list S) :
  All m (v1 ++ v2) =
    match All m v1, All m v2 with
    | (w1, true), (w2, true) => (w1 ++ w2, true)
    | _, _ => ([], false)
    end.
Proof.
  rewrite !All_eq, forallb_app, map_app.
  by destruct (forallb _ v1), (forallb _ v2).
Qed.

(** X12. Lifting commutes with chaining: [All] of [f] followed by [g]
    is [All(f)] followed by [All(g)]. *)
Theorem All_of_chain {A B C} `{!Zero B, !Zero C} (f : Mapper A B)
    (g : Mapper B C) (v : list A) :
  All (chain f g) v = chain (All f) (All g) v.
Proof. apply All_chain. Qed.

(** X13. [Map] twice is [Map] of the chain of the two mappers, and
    [Map] with the mapper that always succeeds with its input returns
    the node it was given. *)
Theorem Map_Map {A B C} `{!Zero A, !Zero B, !Zero C} (n : Node A)
    (f : Mapper A B) (g : Mapper B C) :
  Map (Map n f) g = Map n (chain f g)
  ∧ Map n (fun v => (v, true)) = n.
Proof.
  destruct n as [|v]; [done|]. split; [|done].
  rewrite !Map_value. unfold chain.
  destruct (f v) as [x []]; simpl; [|done].
  by rewrite Map_value.
Qed.

(** ** Further properties: the typed getters *)

Section GetterMore.
Implicit Types (o : Object) (keys : list string).

(** A typed getter is [Map] over what the keys reach. *)
Lemma Map_call_Get {T} o keys (m : Mapper any T) :
  Map_call (Get o keys) m = Some (Map (of_option (reach o keys)) m).
Proof. by rewrite Get_reach. Qed.

Lemma Get_value_inv o keys v :
  Get o keys = Some (ValueNode v) ↔ reach o keys = Some v.
Proof.
  rewrite Get_reach. unfold of_option, ValueNode, EmptyNode.
  destruct (reach o keys); split; intros; by simplify_eq.
Qed.
End GetterMore.

(** X14. A typed getter returns a value exactly when [Get] returns that
    value boxed with the getter's type: a slice for [GetArray], a bool
    for [GetBool], a float64 for [GetFloat], a [map[string]any] for
    [GetObject] and a string for [GetString]. *)
Theorem typed_getter_iff (o : Object) (keys : list string) :
  (∀ l, GetArray o keys = Some (ValueNode l)
        ↔ Get o keys = Some (ValueNode (Slice l)))
  ∧ (∀ b, GetBool o keys = Some (ValueNode b)
          ↔ Get o keys = Some (ValueNode (Bool b)))
  ∧ (∀ f, GetFloat o keys = Some (ValueNode f)
          ↔ Get o keys = Some (ValueNode (Float64 f)))
  ∧ (∀ m, GetObject o keys = Some (ValueNode m)
          ↔ Get o keys = Some (ValueNode (MapStringAny m)))
  ∧ (∀ s, GetString o keys = Some (ValueNode s)
          ↔ Get o keys = Some (ValueNode (String s))).
Proof.
  unfold GetArray, GetBool, GetFloat, GetObject, GetString.
  rewrite !Map_call_Get, Get_reach.
  unfold of_option, Map, ValueNode, EmptyNode.
  destruct (reach o keys) as [[]|]; cbn;
    split_and!; intros; split; intros; by simplify_eq.
Qed.

(** X15. For the same keys at most one of [GetArray], [GetBool],
    [GetFloat], [GetObject] and [GetString] returns a value. *)
Theorem typed_getters_exclusive (o : Object) (keys : list string) :
  ∃ nA nB nF nO nS,
    GetArray o keys = Some nA
    ∧ GetBool o keys = Some nB
    ∧ GetFloat o keys = Some nF
    ∧ GetObject o keys = Some nO
    ∧ GetString o keys = Some nS
    ∧ present nA + present nB + present nF + present nO + present nS ≤ 1.
Proof.
  unfold GetArray, GetBool, GetFloat, GetObject, GetString.
  rewrite !Map_call_Get. eexists _, _, _, _, _.
  split_and!; [reflexivity..|].
  destruct (reach o keys) as [[]|]; cbn; lia.
Qed.

(** X16. Null has no type: when [Get] returns a non-empty node holding
    null, each of the twelve typed getters returns the empty node. *)
Theorem typed_getters_null (unrepresentable : spec_float → Z) (o : Object)
    (keys : list string) :
  Get o keys = Some (ValueNode Nil) →
  GetArray o keys = Some EmptyNode
  ∧ GetBool o keys = Some EmptyNode
  ∧ GetFloat o keys = Some EmptyNode
  ∧ GetInt unrepresentable o keys = Some EmptyNode
  ∧ GetObject o keys = Some EmptyNode
  ∧ GetString o keys = Some EmptyNode
  ∧ GetArrays o keys = Some EmptyNode
  ∧ GetBools o keys = Some EmptyNode
  ∧ GetFloats o keys = Some EmptyNode
  ∧ GetInts unrepresentable o keys = Some EmptyNode
  ∧ GetObjects o keys = Some EmptyNode
  ∧ GetStrings o keys = Some EmptyNode.
Proof.
  intros HGet.
  unfold GetInts, GetStrings, GetObjects, GetFloats, GetBools, GetArrays,
    GetInt, GetString, GetObject, GetFloat, GetBool, GetArray, Map_call.
  rewrite HGet. by split_and!.
Qed.

Lemma typed_getters_null_witness :
  Get a_null ["a"] = Some (ValueNode Nil)
  ∧ GetArray a_null ["a"] = Some EmptyNode
  ∧ GetBool a_null ["a"] = Some EmptyNode
  ∧ GetFloat a_null ["a"] = Some EmptyNode
  ∧ GetInt (fun _ => 0%Z) a_null ["a"] = Some EmptyNode
  ∧ GetObject a_null ["a"] = Some EmptyNode
  ∧ GetString a_null ["a"] = Some EmptyNode
  ∧ GetArrays a_null ["a"] = Some EmptyNode
  ∧ GetBools a_null ["a"] = Some EmptyNode
  ∧ GetFloats a_null ["a"] = Some EmptyNode
  ∧ GetInts (fun _ => 0%Z) a_null ["a"] = Some EmptyNode
  ∧ GetObjects a_null ["a"] = Some EmptyNode
  ∧ GetStrings a_null ["a"] = Some EmptyNode.
Proof.
  split; [reflexivity|].
  apply (typed_getters_null (fun _ => 0%Z) a_null ["a"]). reflexivity.
Defined.

(** X17. Called without a key, each of the twelve typed getters returns
    the empty node, [GetObject] included: the object that [Get()] boxes
    has the type [Object], which no assertion of the default mappers
    matches. *)
Theorem typed_getters_no_keys (unrepresentable : spec_float → Z)
    (o : Object) :
  Get o [] = Some (ValueNode (Boxed o))
  ∧ GetArray o [] = Some EmptyNode
  ∧ GetBool o [] = Some EmptyNode
  ∧ GetFloat o [] = Some EmptyNode
  ∧ GetInt unrepresentable o [] = Some EmptyNode
  ∧ GetObject o [] = Some EmptyNode
  ∧ GetString o [] = Some EmptyNode
  ∧ GetArrays o [] = Some EmptyNode
  ∧ GetBools o [] = Some EmptyNode
  ∧ GetFloats o [] = Some EmptyNode
  ∧ GetInts unrepresentable o [] = Some EmptyNode
  ∧ GetObjects o [] = Some EmptyNode
  ∧ GetStrings o [] = Some EmptyNode.
Proof. by split_and!. Qed.

(** X18. [GetInt] returns [z] only where [GetFloat] returns a number
    [f] without fraction that is [==] to [float64(z)]; [z] is an
    [int64]. *)
Theorem GetInt_GetFloat (unrepresentable : spec_float → Z) (o : Object)
    (keys : list string) (z : Z) :
  GetInt unrepresentable o keys = Some (ValueNode z) →
  ∃ f, GetFloat o keys = Some (ValueNode f)
       ∧ AsInt unrepresentable f = (z, true)
       ∧ float64_eq f (float64_of_int z) = true
       ∧ integral f = true
       ∧ in_int64 z = true.
Proof.
  unfold GetInt, GetFloat. rewrite Map_call_Get.
  cbn [Map_call mbind option_bind].
  destruct (Map (of_option (reach o keys)) AsFloat) as [|f]; [done|].
  rewrite Map_value. intros Hz. exists f.
  assert (HAsInt : AsInt unrepresentable f = (z, true)).
  { destruct (AsInt unrepresentable f) as [w []]; cbn in Hz;
      unfold ValueNode in Hz; by simplify_eq. }
  split_and!; [done|done| | |].
  - unfold AsInt in HAsInt. injection HAsInt as Hw Hok. by rewrite Hw in Hok.
  - apply (AsInt_integral unrepresentable). by rewrite HAsInt.
  - unfold AsInt in HAsInt. injection HAsInt as Hw Hok. rewrite <- Hw.
    apply int64_of_float64_in_int64.
Qed.

Lemma GetInt_GetFloat_witness :
  GetInt (fun _ => 0%Z) readme ["obj"; "num"] = Some (ValueNode 42%Z)
  ∧ ∃ f, GetFloat readme ["obj"; "num"] = Some (ValueNode f)
         ∧ AsInt (fun _ => 0%Z) f = (42%Z, true)
         ∧ float64_eq f (float64_of_int 42) = true
         ∧ integral f = true
         ∧ in_int64 42 = true.
Proof.
  split; [reflexivity|].
  apply (GetInt_GetFloat (fun _ => 0%Z) readme ["obj"; "num"] 42%Z).
  reflexivity.
Defined.

(** ** Further properties: the array getters *)

Section AllMore.
Context {S T : Type} `{!Zero T}.
Implicit Types (m : Mapper S T) (l : list S) (ys : list T).

(** [All(m)] succeeds with [ys] exactly when [m] succeeds on each
    element with the element of [ys] at its place. *)
Lemma All_Forall2 m l ys :
  All m l = (ys, true) ↔ Forall2 (fun x y => m x = (y, true)) l ys.
Proof.
  rewrite All_eq. revert ys. induction l as [|x l IH]; intros ys; simpl.
  - split; [intros [= <-]; constructor|by intros ->%Forall2_nil_inv_l].
  - destruct (m x) as [y ok] eqn:Hx. destruct ok; simpl.
    + split.
      * destruct (forallb (fun x => (m x).2) l) eqn:Hl; [|done].
        intros [= <-]. constructor; [done|]. by apply IH.
      * intros (y' & ys' & Hy & Hys & ->)%Forall2_cons_inv_l.
        rewrite Hx in Hy. injection Hy as <-.
        apply IH in Hys. revert Hys.
        destruct (forallb (fun x => (m x).2) l); intros; by simplify_eq.
    + split; [done|].
      intros (y' & ys' & Hy & _)%Forall2_cons_inv_l.
      rewrite Hx in Hy. by simplify_eq.
Qed.

(** For a mapper that takes the box [box] off: [All(m)] succeeds with
    [ys] exactly on the slice of the boxed [ys]. *)
Lemma All_unbox m (box : T → S) l ys :
  (∀ x y, m x = (y, true) ↔ x = box y) →
  All m l = (ys, true) ↔ l = map box ys.
Proof.
  intros Hbox. rewrite All_Forall2. split.
  - induction 1 as [|x y l ys Hxy _ IH]; [done|].
    simpl. f_equal; [by apply Hbox|done].
  - intros ->. induction ys as [|y ys IH]; constructor; [by apply Hbox|done].
Qed.
End AllMore.

Section ArrayGetters.
Context {T : Type} `{!Zero T}.

Lemma array_getter_iff (m : Mapper any T) (box : T → any) (o : Object)
    (keys : list string) (ys : list T) :
  (∀ x y, m x = (y, true) ↔ x = box y) →
  Map_call (GetArray o keys) (All m) = Some (ValueNode ys)
  ↔ GetArray o keys = Some (ValueNode (map box ys)).
Proof.
  intros Hbox. unfold GetArray. rewrite Map_call_Get.
  cbn [Map_call mbind option_bind]. unfold ValueNode.
  destruct (Map (of_option (reach o keys)) AsArray) as [|l];
    [split; intros; by simplify_eq|].
  rewrite Map_value. pose proof (All_unbox m box l ys Hbox) as Hl.
  destruct (All m l) as [w ok]. destruct ok; cbn.
  - split.
    + intros [= ->]. f_equal. f_equal. by apply Hl.
    + intros [= ->]. f_equal. f_equal.
      destruct Hl as [_ Hl]. specialize (Hl eq_refl). by simplify_eq.
  - split; [done|]. intros [= ->].
    destruct Hl as [_ Hl]. specialize (Hl eq_refl). by simplify_eq.
Qed.
End ArrayGetters.

(** X19. A typed array getter returns [ys] exactly when [GetArray]
    returns the slice of the elements of [ys] boxed with the getter's
    type: the typed slice, boxed again, is the raw array. *)
Theorem array_getters_unbox (o : Object) (keys : list string) :
  (∀ ls, GetArrays o keys = Some (ValueNode ls)
         ↔ GetArray o keys = Some (ValueNode (map Slice ls)))
  ∧ (∀ bs, GetBools o keys = Some (ValueNode bs)
           ↔ GetArray o keys = Some (ValueNode (map Bool bs)))
  ∧ (∀ fs, GetFloats o keys = Some (ValueNode fs)
           ↔ GetArray o keys = Some (ValueNode (map Float64 fs)))
  ∧ (∀ ms, GetObjects o keys = Some (ValueNode ms)
           ↔ GetArray o keys = Some (ValueNode (map MapStringAny ms)))
  ∧ (∀ ss, GetStrings o keys = Some (ValueNode ss)
           ↔ GetArray o keys = Some (ValueNode (map String ss))).
Proof.
  split_and!; intros ys; apply array_getter_iff;
    intros [] y; cbn; split; intros; by simplify_eq.
Qed.

(** X20. The empty array is an array of every type: where [GetArray]
    returns the empty slice, all six typed array getters return a
    non-empty node holding the empty slice. *)
Theorem array_getters_empty (unrepresentable : spec_float → Z)
    (o : Object) (keys : list string) :
  GetArray o keys = Some (ValueNode []) →
  GetArrays o keys = Some (ValueNode [])
  ∧ GetBools o keys = Some (ValueNode [])
  ∧ GetFloats o keys = Some (ValueNode [])
  ∧ GetInts unrepresentable o keys = Some (ValueNode [])
  ∧ GetObjects o keys = Some (ValueNode [])
  ∧ GetStrings o keys = Some (ValueNode []).
Proof.
  intros HGet.
  unfold GetInts, GetStrings, GetObjects, GetFloats, GetBools, GetArrays,
    Map_call.
  rewrite HGet. by split_and!.
Qed.

Lemma array_getters_empty_witness :
  GetArray v_empty ["v"] = Some (ValueNode [])
  ∧ GetArrays v_empty ["v"] = Some (ValueNode [])
  ∧ GetBools v_empty ["v"] = Some (ValueNode [])
  ∧ GetFloats v_empty ["v"] = Some (ValueNode [])
  ∧ GetInts (fun _ => 0%Z) v_empty ["v"] = Some (ValueNode [])
  ∧ GetObjects v_empty ["v"] = Some (ValueNode [])
  ∧ GetStrings v_empty ["v"] = Some (ValueNode []).
Proof.
  split; [reflexivity|].
  apply (array_getters_empty (fun _ => 0%Z) v_empty ["v"]). reflexivity.
Defined.

(** ** Further properties: traversal in two steps, and integers *)

Section ReachMore.
Implicit Types (o : Object) (k : string) (keys : list string).

Lemma reach_nil_map keys : keys ≠ [] → reach ∅ keys = None.
Proof. by destruct keys as [|k [|k' keys]]. Qed.

(** What two lists of keys reach one after the other. *)
Lemma reach_app o keys1 keys2 :
  keys1 ≠ [] → keys2 ≠ [] →
  reach o (keys1 ++ keys2) =
    match reach o keys1 with
    | Some (MapStringAny o') => reach o' keys2
    | _ => None
    end.
Proof.
  intros Hne1 Hne2. revert o Hne1.
  induction keys1 as [|k keys1 IH]; intros o Hne1; [done|].
  destruct keys1 as [|k' keys1].
  - destruct keys2; [done|]. reflexivity.
  - change (reach o ((k :: k' :: keys1) ++ keys2))
      with (match o !! k with
            | Some (MapStringAny o') => reach o' ((k' :: keys1) ++ keys2)
            | _ => None
            end).
    cbn [reach]. destruct (o !! k) as [[]|]; try done. by apply IH.
Qed.
End ReachMore.

(** X21. A traversal can be done in two steps: for key lists that are
    not empty, [Get] with the keys of both is [Get] with the second
    list on the value of the node that [GetObject] returns for the
    first; when that node is empty its value is the nil object, on
    which [Get] is empty. *)
Theorem Get_in_two_steps (o : Object) (keys1 keys2 : list string) :
  keys1 ≠ [] → keys2 ≠ [] →
  ∃ n, GetObject o keys1 = Some n
       ∧ Get o (keys1 ++ keys2) = Get (Value n) keys2.
Proof.
  intros Hne1 Hne2. exists (Map (of_option (reach o keys1)) AsObject).
  split; [apply Map_call_Get|].
  rewrite !Get_reach, reach_app by done. do 2 f_equal.
  destruct (reach o keys1) as [[]|]; cbn; try done;
    symmetry; by apply reach_nil_map.
Qed.

Lemma Get_in_two_steps_witness :
  ["obj"] ≠ [] ∧ ["num"] ≠ []
  ∧ ∃ n, GetObject readme ["obj"] = Some n
         ∧ Get readme (["obj"] ++ ["num"]) = Get (Value n) ["num"].
Proof.
  split; [discriminate|]. split; [discriminate|].
  apply (Get_in_two_steps readme ["obj"] ["num"]); discriminate.
Defined.

(** X22. Every integer of magnitude below 2^53 survives the way through
    [float64] and back: [AsInt(float64(z))] succeeds with [z]. *)
Theorem AsInt_of_small_integer (unrepresentable : spec_float → Z) (z : Z) :
  (Z.abs z < 2 ^ 53)%Z →
  AsInt unrepresentable (float64_of_int z) = (z, true).
Proof. apply AsInt_float64_of_int. Qed.

Lemma AsInt_of_small_integer_witness :
  (Z.abs 12345 < 2 ^ 53)%Z
  ∧ AsInt (fun _ => 0%Z) (float64_of_int 12345) = (12345%Z, true).
Proof.
  split; [reflexivity|].
  apply (AsInt_of_small_integer (fun _ => 0%Z) 12345). reflexivity.
Defined.

(** X23. [AsInt] fails on NaN and on both infinities, whatever the
    conversion [int64(v)] gives for them. *)
Theorem AsInt_fails_off_the_numbers (unrepresentable : spec_float → Z)
    (s : bool) :
  (AsInt unrepresentable S754_nan).2 = false
  ∧ (AsInt unrepresentable (S754_infinity s)).2 = false.
Proof.
  split; [reflexivity|].
  destruct (AsInt unrepresentable (S754_infinity s)).2 eqn:Hok; [|done].
  by apply AsInt_integral in Hok.
Qed.

(** X24. [GetInts] returns [zs] only where [GetFloats] returns numbers
    [fs], as many as [zs], none with a fraction, on each of which
    [AsInt] succeeds with the integer at its place in [zs]. *)
Theorem GetInts_GetFloats (unrepresentable : spec_float → Z) (o : Object)
    (keys : list string) (zs : list Z) :
  GetInts unrepresentable o keys = Some (ValueNode zs) →
  ∃ fs, GetFloats o keys = Some (ValueNode fs)
        ∧ length fs = length zs
        ∧ Forall2 (fun f z => AsInt unrepresentable f = (z, true)) fs zs
        ∧ Forall (fun f => integral f = true) fs.
Proof.
  unfold GetInts, Map_call at 1.
  destruct (GetFloats o keys) as [[|fs]|]; cbn [mbind option_bind]; try done.
  rewrite Map_value.
  destruct (All (AsInt unrepresentable) fs) as [w ok] eqn:HAll.
  destruct ok; cbn; [|done]. unfold ValueNode. intros [= ->].
  apply All_Forall2 in HAll. exists fs. split_and!; [done| |done|].
  - by eapply Forall2_length.
  - clear -HAll. induction HAll as [|f z fs zs Hf _ IH]; constructor; [|done].
    apply (AsInt_integral unrepresentable). by rewrite Hf.
Qed.

Lemma GetInts_GetFloats_witness :
  GetInts (fun _ => 0%Z) v_10_20 ["v"] = Some (ValueNode [10%Z; 20%Z])
  ∧ ∃ fs, GetFloats v_10_20 ["v"] = Some (ValueNode fs)
          ∧ length fs = length [10%Z; 20%Z]
          ∧ Forall2 (fun f z => AsInt (fun _ => 0%Z) f = (z, true))
              fs [10%Z; 20%Z]
          ∧ Forall (fun f => integral f = true) fs.
Proof.
  split; [reflexivity|].
  apply (GetInts_GetFloats (fun _ => 0%Z) v_10_20 ["v"] [10%Z; 20%Z]).
  reflexivity.
Defined.

(** X25. [Has(k)] is true exactly when [Get(k)] returns a non-empty
    node, over values and over the heap, where both leave the heap as it
    was; so [Has] is true for a key that holds null. *)
Theorem Has_agrees_with_Get (k : string) :
  (∀ o : Object, ∃ n, Get o [k] = Some n ∧ Has o k = negb (Empty n))
  ∧ (∀ (o : Store.Object) (h : Store.heap),
       ∃ n, Store.Get o [k] h = Some (n, h)
            ∧ Store.Has o k h = Some (negb (Empty n), h)).
Proof.
  split.
  - intros o. exists (get o k). split; [done|].
    unfold Has, get. by destruct (o !! k).
  - intros o h. eexists. split; [apply Store_Get_one|].
    rewrite Store_Has_eq. by destruct (Store.entries h o !! k).
Qed.
